(** * router-lite: the route registry and its message-bus subscriber

    A shallow embedding of [registry.RouteRegistry] (Register, Unregister,
    Lookup, LookupWithInstance, the pruning sweep, parseContextPath) and of
    [mbus.Subscriber] (message validation, the register/unregister handlers,
    the pending limits), with the properties of the specification proved
    over it.

    Go values are embedded as follows.
    - [string] is Rocq's [string] (a sequence of bytes).
    - [time.Time] and [time.Duration] are [Z] (nanoseconds); every call of
      [time.Now()] is an explicit argument of the function that makes it.
    - A Go map is a [gmap]; a pointer that may be [nil] is an [option].
    - The registry lock is not modelled: every function below is the
      critical section it runs under the lock, as one atomic step. *)

From Stdlib Require Import ZArith String Ascii.
From stdpp Require Import gmap strings list fin_maps pretty.

Local Open Scope string_scope.
Local Open Scope Z_scope.

(** ** Package [strings] of the Go standard library (the functions used) *)
Module GoStrings.

(** [s[n:]] *)
Fixpoint skip (n : nat) (s : string) : string :=
  match n, s with
  | O, _ => s
  | S n', String _ s' => skip n' s'
  | S _, EmptyString => EmptyString
  end.

(** [strings.HasPrefix(s, prefix)] *)
Definition HasPrefix (s prefix : string) : bool := String.prefix prefix s.

(** [strings.TrimPrefix(s, prefix)]: [s] without the leading [prefix], or
    [s] itself when it does not start with [prefix]. *)
Definition TrimPrefix (s prefix : string) : string :=
  if HasPrefix s prefix then skip (String.length prefix) s else s.

(** [strings.Index(s, substr)]: the index of the first instance of
    [substr] in [s], or [-1]. *)
Definition Index (s substr : string) : Z :=
  match String.index 0 substr s with
  | Some i => Z.of_nat i
  | None => -1
  end.

(** [strings.SplitN(s, sep, 2)] for a non-empty [sep]: [s] cut at the
    first instance of [sep], or [s] alone when there is none. *)
Definition SplitN_2 (s sep : string) : list string :=
  match String.index 0 sep s with
  | Some i => [String.substring 0 i s; skip (i + String.length sep) s]
  | None => [s]
  end.

(** [s[0:idx]] *)
Definition slice_to (s : string) (idx : Z) : string :=
  String.substring 0 (Z.to_nat idx) s.

(** [s] holds the byte [c] somewhere. *)
Fixpoint contains_byte (c : ascii) (s : string) : bool :=
  match s with
  | EmptyString => false
  | String a s' => if Ascii.eqb a c then true else contains_byte c s'
  end.

End GoStrings.

(** ** Package [route]: URI keys, endpoints and endpoint pools

    The types and operations of this package are modelled from the
    specification (sections 3, 4.1-4.3) and from the way the registry and
    the subscriber call them. *)
Module route.

Definition Time := Z.
Definition Duration := Z.

(** [type Uri string] *)
Definition Uri := string.

(** [Uri.String()] *)
Definition Uri_String (u : Uri) : string := u.

(** Modelled from the spec: the URI key model (section 4.1). The
    normalisation rule of [RouteKey] and the decomposition
    of a key into trie segments are left open by the specification, so
    they are the fields of an interface; what the specification does fix
    is that [NextWildcard] either yields the next more general key or
    signals exhaustion (an error, [Some msg]), and that the keys it yields
    form a strictly decreasing specificity chain. *)
Class UriKeyModel := {
  RouteKey : Uri -> Uri;
  NextWildcard : Uri -> Uri * option string;
  segments : Uri -> list string;
  specificity : Uri -> nat;
  NextWildcard_decreases :
    forall u u', NextWildcard u = (u', None) -> (specificity u' < specificity u)%nat
}.

(** [models.ModificationTag] of the routing API. *)
Record ModificationTag := { Guid : string; Index : N }.

(** Modelled from the spec: the Endpoint record (sections 3 and 4.2); the
    field names are the ones the registry and the subscriber use. *)
Record Endpoint := {
  ApplicationId : string;
  host : string;
  port : N;
  PrivateInstanceId : string;
  PrivateInstanceIndex : string;
  Tags : gmap string string;
  staleThreshold : Duration;
  RouteServiceUrl : string;
  ModTag : ModificationTag
}.

Definition Second : Duration := 1000000000.

(** Modelled from the spec: [route.NewEndpoint], with the arguments in the
    order [RegistryMessage.makeEndpoint] passes them. *)
Definition NewEndpoint (appId host : string) (port : N)
    (privateInstanceId privateInstanceIndex : string)
    (tags : gmap string string) (staleThresholdInSeconds : Z)
    (routeServiceUrl : string) (modificationTag : ModificationTag) : Endpoint :=
  {| ApplicationId := appId; host := host; port := port;
     PrivateInstanceId := privateInstanceId;
     PrivateInstanceIndex := privateInstanceIndex;
     Tags := tags;
     staleThreshold := staleThresholdInSeconds * Second;
     RouteServiceUrl := routeServiceUrl;
     ModTag := modificationTag |}.

(** Modelled from the spec: [CanonicalAddr()] returns [host:port]. *)
Definition CanonicalAddr (e : Endpoint) : string :=
  host e ++ ":" ++ pretty (port e).

(** Modelled from the spec: an entry of a pool, the endpoint and its
    last-updated timestamp. *)
Record endpointElem := { endpoint : Endpoint; updated : Time }.

(** Modelled from the spec: the Endpoint Pool (section 3): a mapping from
    canonical address to endpoint, a context path and a pool-level
    staleness threshold. *)
Record Pool := {
  endpoints : gmap string endpointElem;
  contextPath : string;
  threshold : Duration
}.

(** Modelled from the spec: [route.NewPool(threshold, contextPath)]. *)
Definition NewPool (thr : Duration) (ctx : string) : Pool :=
  {| endpoints := ∅; contextPath := ctx; threshold := thr |}.

Definition with_endpoints (p : Pool) (m : gmap string endpointElem) : Pool :=
  {| endpoints := m; contextPath := contextPath p; threshold := threshold p |}.

(** Modelled from the spec: [Put(endpoint)] inserts or overwrites by
    canonical address and always refreshes the entry's timestamp to
    [now], the reading of the clock [Put] takes. *)
Definition Put (p : Pool) (e : Endpoint) (now : Time) : Pool :=
  with_endpoints p (<[CanonicalAddr e := {| endpoint := e; updated := now |}]> (endpoints p)).

(** Modelled from the spec: [Remove(endpoint)] deletes by canonical
    address, whatever the other fields. *)
Definition Remove (p : Pool) (e : Endpoint) : Pool :=
  with_endpoints p (delete (CanonicalAddr e) (endpoints p)).

(** Modelled from the spec: [IsEmpty()] is true iff the address mapping
    is empty. *)
Definition IsEmpty (p : Pool) : bool := Nat.eqb (size (endpoints p)) 0.

(** The endpoints of a pool in the order [Each] visits them. *)
Definition endpoint_list (p : Pool) : list Endpoint :=
  (fun kv => endpoint (snd kv)) <$> map_to_list (endpoints p).

(** The result of a call that may end in a run-time panic. *)
Inductive outcome (A : Type) : Type :=
  | Returns (a : A)
  | Panics.
Arguments Returns {A} a.
Arguments Panics {A}.

(** Modelled from the spec: [Each(fn)] applies [fn] to every endpoint of
    the receiver's address mapping. The callback is a state transformer
    on what it captures ([St]). The receiver is a [*Pool]: on a [nil]
    receiver there is no mapping to read, and reading it is a nil pointer
    dereference. *)
Definition Each {St : Type} (p : option Pool) (fn : Endpoint -> St -> St) (s : St) : outcome St :=
  match p with
  | None => Panics
  | Some p => Returns (foldl (fun acc e => fn e acc) s (endpoint_list p))
  end.

(** Modelled from the spec: the threshold [PruneEndpoints] applies to an
    entry: the endpoint's own override if set, else the pool's threshold,
    else [defaultThreshold]. A threshold is set when it is positive. *)
Definition effectiveThreshold (p : Pool) (defaultThreshold : Duration) (el : endpointElem) : Duration :=
  if 0 <? staleThreshold (endpoint el) then staleThreshold (endpoint el)
  else if 0 <? threshold p then threshold p
  else defaultThreshold.

(** Modelled from the spec: an entry is stale at [now] when
    [now - lastUpdated] exceeds its threshold. *)
Definition stale (p : Pool) (defaultThreshold : Duration) (now : Time) (el : endpointElem) : bool :=
  effectiveThreshold p defaultThreshold el <? now - updated el.

(** Modelled from the spec: [PruneEndpoints(defaultThreshold)] removes
    every stale endpoint from the pool and returns the removed ones;
    [now] is the reading of the clock it takes. *)
Definition PruneEndpoints (p : Pool) (defaultThreshold : Duration) (now : Time) : Pool * list Endpoint :=
  (with_endpoints p (filter (fun kv => stale p defaultThreshold now (snd kv) = false) (endpoints p)),
   (fun kv => endpoint (snd kv)) <$>
     map_to_list (filter (fun kv => stale p defaultThreshold now (snd kv) = true) (endpoints p))).

(** Modelled from the spec: [MarkUpdated(now)] sets every endpoint's
    timestamp to [now] and alters no other field. *)
Definition MarkUpdated (p : Pool) (now : Time) : Pool :=
  with_endpoints p ((fun el => {| endpoint := endpoint el; updated := now |}) <$> endpoints p).

End route.

(** ** Package [container]: the prefix trie routing table

    The trie is modelled from the specification (sections 3 and 4.4). *)
Module container.

(** Modelled from the spec: a tree keyed by URI segments in which each
    node may own one Pool. [Pool] and [ChildNodes] are the node's
    fields; the children are a Go map from segment to node. *)
#[warnings="-register-all"]
Inductive Trie := TrieNode { Pool : option route.Pool; ChildNodes : gmap string Trie }.

(** Modelled from the spec: [container.NewTrie()], the empty root. *)
Definition NewTrie : Trie := TrieNode None ∅.

Definition isLeaf (t : Trie) : bool := Nat.eqb (size (ChildNodes t)) 0.

(** Modelled from the spec: a node with no Pool and no children, which
    [Snip] detaches. *)
Definition useless (t : Trie) : bool :=
  match Pool t with
  | None => isLeaf t
  | Some _ => false
  end.

(** Modelled from the spec: a Pool reference as [Snip] leaves it. A Pool
    is removed from the trie when it becomes empty: an emptied Pool counts
    as no Pool and its reference is dropped. *)
Definition live (p : option route.Pool) : option route.Pool :=
  match p with
  | Some pool => if route.IsEmpty pool then None else Some pool
  | None => None
  end.

(** Modelled from the spec: [Snip()] on a node, seen from its parent:
    the node loses an emptied Pool, and is detached ([None]) once it has
    no Pool and no children; the caller then snips the parent in turn. *)
Definition Snip (t : Trie) : option Trie :=
  let t' := TrieNode (live (Pool t)) (ChildNodes t) in
  if useless t' then None else Some t'.

(** The root is never detached: where a [Snip] would detach it, what
    stays is the root with no Pool and no children. *)
Definition root (o : option Trie) : Trie := default NewTrie o.

(** Modelled from the spec: the walk of [Find] and [MatchUri] along a
    segment path: the Pool at its end, if the path exists and its
    terminal node owns one. *)
Fixpoint find_path (path : list string) (t : Trie) : option route.Pool :=
  match path with
  | [] => Pool t
  | s :: rest =>
      match ChildNodes t !! s with
      | Some c => find_path rest c
      | None => None
      end
  end.

(** Modelled from the spec: the walk of [Insert]: attach [pool] at the
    end of [path], creating the nodes on the way and overwriting a Pool
    reference already there. *)
Fixpoint insert_path (path : list string) (pool : route.Pool) (t : Trie) : Trie :=
  match path with
  | [] => TrieNode (Some pool) (ChildNodes t)
  | s :: rest =>
      TrieNode (Pool t)
        (<[s := insert_path rest pool (default NewTrie (ChildNodes t !! s))]> (ChildNodes t))
  end.

(** A mutation [f] of the Pool at the end of [path], made through the
    pointer the trie holds: the trie sees the mutated Pool. *)
Fixpoint mutate_path (f : route.Pool -> route.Pool) (path : list string) (t : Trie) : Trie :=
  match path with
  | [] => TrieNode (f <$> Pool t) (ChildNodes t)
  | s :: rest => TrieNode (Pool t) (alter (mutate_path f rest) s (ChildNodes t))
  end.

(** Modelled from the spec: the walk of [Delete]. [None]: the path does
    not exist and nothing changes. [Some r]: the terminal node lost its
    Pool reference and was snipped, and [r] is what is left of this node:
    [None] when the chain of snips detached it, else the node that
    stays. *)
Fixpoint delete_path (path : list string) (t : Trie) : option (option Trie) :=
  match path with
  | [] => Some (Snip (TrieNode None (ChildNodes t)))
  | s :: rest =>
      match ChildNodes t !! s with
      | None => None
      | Some c =>
          match delete_path rest c with
          | None => None
          | Some (Some c') => Some (Some (TrieNode (Pool t) (<[s := c']> (ChildNodes t))))
          | Some None => Some (Snip (TrieNode (Pool t) (delete s (ChildNodes t))))
          end
      end
  end.

(** What a callback of [EachNodeWithPool] does to the node it is given:
    it mutates the node's Pool ([onPool], told the node's path, which
    stands for the moment of the visit), and then calls [Snip()] on the
    node or not ([thenSnip]). *)
Record visitor := {
  onPool : list string -> route.Pool -> route.Pool;
  thenSnip : bool
}.

(** Modelled from the spec: [EachNodeWithPool(fn)] visits every node that
    owns a Pool, a node before its children. The result is what is left
    of the node below [path] once the visit of its subtree is over:
    [None] when a [Snip] of the callback, or the chain of snips started
    below, detached it. A node that had no Pool and no children to begin
    with is never visited nor snipped, and stays. *)
Fixpoint visit (v : visitor) (path : list string) (t : Trie) : option Trie :=
  match t with
  | TrieNode p cs =>
      let p' := onPool v path <$> p in
      let cs' := map_imap (fun s c => visit v (path ++ [s]) c) cs in
      if thenSnip v then
        let t' := TrieNode (live p') cs' in
        if useless t' && negb (useless t) then None else Some t'
      else Some (TrieNode p' cs')
  end.

(** Modelled from the spec: [EachNodeWithPool(fn)] called on the root. *)
Definition EachNodeWithPool (v : visitor) (t : Trie) : Trie := root (visit v [] t).

Section keyed.
Context `{route.UriKeyModel}.

(** Modelled from the spec: [Find(key)], the exact-path lookup. *)
Definition Find (t : Trie) (key : route.Uri) : option route.Pool :=
  find_path (route.segments key) t.

(** Modelled from the spec: [MatchUri(key)], the exact structural match
    of a (possibly wildcard-bearing) key: the Pool at that exact node. It
    does no generalisation of its own. *)
Definition MatchUri (t : Trie) (key : route.Uri) : option route.Pool :=
  find_path (route.segments key) t.

(** Modelled from the spec: [Insert(key, pool)]. *)
Definition Insert (t : Trie) (key : route.Uri) (pool : route.Pool) : Trie :=
  insert_path (route.segments key) pool t.

(** Modelled from the spec: [Delete(key)] removes the Pool reference at
    the terminal node and prunes the now-useless ancestors, walking
    upward; the root stays. *)
Definition Delete (t : Trie) (key : route.Uri) : Trie :=
  match delete_path (route.segments key) t with
  | None => t
  | Some o => root o
  end.

(** A method call on the [*Pool] that [Find(key)] returned. *)
Definition mutate_pool (f : route.Pool -> route.Pool) (t : Trie) (key : route.Uri) : Trie :=
  mutate_path f (route.segments key) t.

End keyed.

End container.

(** ** Package [registry]: the route registry (src/unnamed/part_000) *)
Module registry.

Import route container.

(** [type PruneStatus int], [CONNECTED = iota], [DISCONNECTED]. *)
Inductive PruneStatus := CONNECTED | DISCONNECTED.

(** [*time.Ticker]: the period it fires at, and whether [Stop] was called. *)
Record Ticker := { period : Duration; stopped : bool }.

(** [type RouteRegistry struct]. [suspendPruning] is a [func() bool]. *)
Record RouteRegistry := {
  byUri : Trie;
  suspendPruning : unit -> bool;
  pruningStatus : PruneStatus;
  pruneStaleDropletsInterval : Duration;
  dropletStaleThreshold : Duration;
  ticker : option Ticker;
  timeOfLastUpdate : Time
}.

Definition set_byUri (r : RouteRegistry) (t : Trie) : RouteRegistry :=
  {| byUri := t; suspendPruning := suspendPruning r; pruningStatus := pruningStatus r;
     pruneStaleDropletsInterval := pruneStaleDropletsInterval r;
     dropletStaleThreshold := dropletStaleThreshold r;
     ticker := ticker r; timeOfLastUpdate := timeOfLastUpdate r |}.

Definition set_pruningStatus (r : RouteRegistry) (s : PruneStatus) : RouteRegistry :=
  {| byUri := byUri r; suspendPruning := suspendPruning r; pruningStatus := s;
     pruneStaleDropletsInterval := pruneStaleDropletsInterval r;
     dropletStaleThreshold := dropletStaleThreshold r;
     ticker := ticker r; timeOfLastUpdate := timeOfLastUpdate r |}.

Definition set_timeOfLastUpdate (r : RouteRegistry) (t : Time) : RouteRegistry :=
  {| byUri := byUri r; suspendPruning := suspendPruning r; pruningStatus := pruningStatus r;
     pruneStaleDropletsInterval := pruneStaleDropletsInterval r;
     dropletStaleThreshold := dropletStaleThreshold r;
     ticker := ticker r; timeOfLastUpdate := t |}.

Definition set_suspendPruning (r : RouteRegistry) (f : unit -> bool) : RouteRegistry :=
  {| byUri := byUri r; suspendPruning := f; pruningStatus := pruningStatus r;
     pruneStaleDropletsInterval := pruneStaleDropletsInterval r;
     dropletStaleThreshold := dropletStaleThreshold r;
     ticker := ticker r; timeOfLastUpdate := timeOfLastUpdate r |}.

Definition set_ticker (r : RouteRegistry) (k : option Ticker) : RouteRegistry :=
  {| byUri := byUri r; suspendPruning := suspendPruning r; pruningStatus := pruningStatus r;
     pruneStaleDropletsInterval := pruneStaleDropletsInterval r;
     dropletStaleThreshold := dropletStaleThreshold r;
     ticker := k; timeOfLastUpdate := timeOfLastUpdate r |}.

(** [NewRouteRegistry()]: every field but [byUri] and [suspendPruning]
    has Go's zero value. *)
Definition NewRouteRegistry : RouteRegistry :=
  {| byUri := NewTrie; suspendPruning := fun _ => false; pruningStatus := CONNECTED;
     pruneStaleDropletsInterval := 0; dropletStaleThreshold := 0;
     ticker := None; timeOfLastUpdate := 0 |}.

(** [parseContextPath(uri)] *)
Definition parseContextPath (uri : Uri) : string :=
  let contextPath := "/" in
  let split := GoStrings.SplitN_2 (GoStrings.TrimPrefix (Uri_String uri) "/") "/" in
  let contextPath :=
    match split with
    | _ :: split1 :: _ => contextPath ++ split1
    | _ => contextPath
    end in
  let idx := GoStrings.Index contextPath "?" in
  if 0 <=? idx then GoStrings.slice_to contextPath idx else contextPath.

Section operations.
Context `{UriKeyModel}.

(** [Register(uri, endpoint)]; [t] is the clock at entry and [tPut] the
    clock [pool.Put] reads. The Pool is held by pointer: [Put] mutates
    the Pool the trie holds at [routekey]. *)
Definition Register (r : RouteRegistry) (uri : Uri) (endpoint : Endpoint) (t tPut : Time)
    : RouteRegistry :=
  let routekey := RouteKey uri in
  let pool := Find (byUri r) routekey in
  let trie :=
    match pool with
    | None =>
        let contextPath := parseContextPath uri in
        let pool := NewPool (Z.quot (dropletStaleThreshold r) 4) contextPath in
        Insert (byUri r) routekey pool
    | Some _ => byUri r
    end in
  let trie := mutate_pool (fun pool => Put pool endpoint tPut) trie routekey in
  set_timeOfLastUpdate (set_byUri r trie) t.

(** [Unregister(uri, endpoint)] *)
Definition Unregister (r : RouteRegistry) (uri : Uri) (endpoint : Endpoint) : RouteRegistry :=
  let uri := RouteKey uri in
  match Find (byUri r) uri with
  | Some pool =>
      let trie := mutate_pool (fun pool => Remove pool endpoint) (byUri r) uri in
      if IsEmpty (Remove pool endpoint) then set_byUri r (Delete trie uri)
      else set_byUri r trie
  | None => r
  end.

(** The loop of [Lookup]:
    [for pool == nil && err == nil { uri, err = uri.NextWildcard(); pool = r.byUri.MatchUri(uri) }].
    [None] is returned only when [fuel] rounds were not enough. *)
Fixpoint lookupLoop (fuel : nat) (t : Trie) (uri : Uri) (err : option string)
    (pool : option route.Pool) : option (option route.Pool) :=
  match pool, err with
  | None, None =>
      match fuel with
      | O => None
      | S fuel' =>
          let '(uri', err') := NextWildcard uri in
          lookupLoop fuel' t uri' err' (MatchUri t uri')
      end
  | _, _ => Some pool
  end.

(** [Lookup(uri)]. The loop makes at most [specificity uri + 1] rounds
    (lemma [lookupLoop_ends]), which is the fuel it is given. *)
Definition Lookup (r : RouteRegistry) (uri : Uri) : option route.Pool :=
  let uri := RouteKey uri in
  let pool := MatchUri (byUri r) uri in
  default None (lookupLoop (S (specificity uri)) (byUri r) uri None pool).

(** [LookupWithInstance(uri, appId, appIndex)]; [tPut] is the clock
    [surgicalPool.Put] reads. [surgicalPool] is the variable the closure
    captures; [p.Each] is called on whatever [Lookup] returned. *)
Definition LookupWithInstance (r : RouteRegistry) (uri : Uri) (appId appIndex : string)
    (tPut : Time) : outcome (option route.Pool) :=
  let uri := RouteKey uri in
  let p := Lookup r uri in
  let surgicalPool : option route.Pool := None in
  Each p
    (fun e surgicalPool =>
       if String.eqb (ApplicationId e) appId && String.eqb (PrivateInstanceIndex e) appIndex
       then Some (Put (NewPool 0 "") e tPut)
       else surgicalPool)
    surgicalPool.

(** [StartPruningCycle()]: the ticker is created only for a positive
    interval; each of its ticks is one call of [pruneStaleDroplets]. *)
Definition StartPruningCycle (r : RouteRegistry) : RouteRegistry :=
  if 0 <? pruneStaleDropletsInterval r
  then set_ticker r (Some {| period := pruneStaleDropletsInterval r; stopped := false |})
  else r.

(** [StopPruningCycle()] *)
Definition StopPruningCycle (r : RouteRegistry) : RouteRegistry :=
  match ticker r with
  | Some k => set_ticker r (Some {| period := period k; stopped := true |})
  | None => r
  end.

(** [TimeOfLastUpdate()] *)
Definition TimeOfLastUpdate (r : RouteRegistry) : Time := timeOfLastUpdate r.

(** [SuspendPruning(f)] *)
Definition SuspendPruning (r : RouteRegistry) (f : unit -> bool) : RouteRegistry :=
  set_suspendPruning r f.

(** [freshenRoutes()]; [now] is its reading of the clock. *)
Definition freshenRoutes (r : RouteRegistry) (now : Time) : RouteRegistry :=
  set_byUri r
    (EachNodeWithPool
       {| onPool := fun _ pool => MarkUpdated pool now; thenSnip := false |}
       (byUri r)).

(** [pruneStaleDroplets()], one tick of the pruning cycle. [now] is the
    clock [freshenRoutes] reads, and [clock path] the clock
    [PruneEndpoints] reads at the node below [path]. The addresses the
    callback collects are a local it drops. *)
Definition pruneStaleDroplets (r : RouteRegistry) (now : Time) (clock : list string -> Time)
    : RouteRegistry :=
  if suspendPruning r tt then set_pruningStatus r DISCONNECTED
  else
    let r :=
      match pruningStatus r with
      | DISCONNECTED => freshenRoutes r now
      | CONNECTED => r
      end in
    let r := set_pruningStatus r CONNECTED in
    set_byUri r
      (EachNodeWithPool
         {| onPool := fun path pool =>
              fst (PruneEndpoints pool (dropletStaleThreshold r) (clock path));
            thenSnip := true |}
         (byUri r)).

End operations.

End registry.

(** ** Package [mbus]: the message-bus subscriber (src/mbus/subscriber.go) *)
Module mbus.

Import route.

(** [type RegistryMessage struct] *)
Record RegistryMessage := {
  Host : string;
  Port : N;
  Uris : list Uri;
  Tags : gmap string string;
  App : string;
  StaleThresholdInSeconds : Z;
  RouteServiceURL : string;
  PrivateInstanceID : string;
  PrivateInstanceIndex : string
}.

(** [rm.makeEndpoint()] *)
Definition makeEndpoint (rm : RegistryMessage) : Endpoint :=
  NewEndpoint (App rm) (Host rm) (Port rm) (PrivateInstanceID rm) (PrivateInstanceIndex rm)
    (Tags rm) (StaleThresholdInSeconds rm) (RouteServiceURL rm)
    {| Guid := ""; Index := 0 |}.

(** [rm.ValidateMessage()] *)
Definition ValidateMessage (rm : RegistryMessage) : bool :=
  String.eqb (RouteServiceURL rm) "" || GoStrings.HasPrefix (RouteServiceURL rm) "https".

(** [*nats.Msg] *)
Record Msg := { Subject : string; Data : string }.

(** [*nats.Subscription], as far as the subscriber configures it. *)
Record Subscription := {
  subject : string;
  pendingMsgLimit : Z;
  pendingBytesLimit : Z
}.

(** [sub.SetPendingLimits(msgLimit, bytesLimit)] *)
Definition SetPendingLimits (sub : Subscription) (msgLimit bytesLimit : Z) : Subscription :=
  {| subject := subject sub; pendingMsgLimit := msgLimit; pendingBytesLimit := bytesLimit |}.

(** A call the subscriber makes on its [registry.Registry]. The registry
    is an interface to the subscriber: what a handler does is the calls
    it makes, in order. *)
Inductive RegistryCall :=
  | CallRegister (uri : Uri) (endpoint : Endpoint)
  | CallUnregister (uri : Uri) (endpoint : Endpoint).

Section subscriber.

(** [json.Unmarshal(data, &msg)] into a [RegistryMessage]: the decoded
    message, or the decoding error. *)
Variable Unmarshal : string -> RegistryMessage + string.

(** [createRegistryMessage(data)] *)
Definition createRegistryMessage (data : string) : RegistryMessage + string :=
  match Unmarshal data with
  | inr jsonErr => inr jsonErr
  | inl msg =>
      if negb (ValidateMessage msg)
      then inr "Unable to validate message. route_service_url must be https"
      else inl msg
  end.

(** [s.registerRoute(message)] *)
Definition registerRoute (message : Msg) : list RegistryCall :=
  match createRegistryMessage (Data message) with
  | inr regErr => []
  | inl msg =>
      let endpoint := makeEndpoint msg in
      (fun uri => CallRegister uri endpoint) <$> Uris msg
  end.

(** [s.unregisterRoute(message)] *)
Definition unregisterRoute (message : Msg) : list RegistryCall :=
  match createRegistryMessage (Data message) with
  | inr regErr => []
  | inl msg =>
      let endpoint := makeEndpoint msg in
      (fun uri => CallUnregister uri endpoint) <$> Uris msg
  end.

(** The callback [subscribeRoutes] hands to [Subscribe("router.*", ...)]. *)
Definition onMessage (message : Msg) : list RegistryCall :=
  if String.eqb (Subject message) "router.register" then registerRoute message
  else if String.eqb (Subject message) "router.unregister" then unregisterRoute message
  else [].

(** [s.subscribeRoutes()]; [natsSubscriber] and [err] are what
    [s.natsClient.Subscribe] returned. [SetPendingLimits] is called
    whatever [err] is; on a [nil] subscription it configures nothing. *)
Definition subscribeRoutes (natsSubscriber : option Subscription) (err : option string)
    : option Subscription * option string :=
  ((fun sub => SetPendingLimits sub 131072 (131072 * 1024)) <$> natsSubscriber, err).

End subscriber.

(** One call of a handler, made on a [RouteRegistry]; [t] is the clock
    [Register] reads at entry and [tPut] the clock its [Put] reads. *)
Definition runCall `{UriKeyModel} (r : registry.RouteRegistry) (c : RegistryCall)
    (t tPut : Time) : registry.RouteRegistry :=
  match c with
  | CallRegister uri endpoint => registry.Register r uri endpoint t tPut
  | CallUnregister uri endpoint => registry.Unregister r uri endpoint
  end.

(** The calls of a handler, made in order on a [RouteRegistry], the
    first of them being call number [i]. Every call reads the clock anew:
    [now i] is what call number [i] reads at entry, and [nowPut i] what
    its [Put] reads. *)
Fixpoint runCalls `{UriKeyModel} (now nowPut : nat -> Time) (i : nat)
    (r : registry.RouteRegistry) (calls : list RegistryCall) : registry.RouteRegistry :=
  match calls with
  | [] => r
  | c :: calls' => runCalls now nowPut (S i) (runCall r c (now i) (nowPut i)) calls'
  end.

End mbus.

(** ** A URI key model for host names

    Modelled from the spec: one instance of the URI key model of section
    4.1. [RouteKey] strips the query string; [NextWildcard] replaces the
    left-most host segment by the wildcard marker, and signals exhaustion
    at a top-level wildcard or a single-segment host; the trie segments
    are the host segments, split on "." and taken in reverse-domain
    order. *)
Module hostKeys.

Import route.

(** The suffix of [s] that starts at its first ".", if it has one. *)
Fixpoint from_dot (s : string) : option string :=
  match s with
  | EmptyString => None
  | String a s' => if Ascii.eqb a "." then Some s else from_dot s'
  end.

(** Modelled from the spec: [RouteKey()] strips the query string. *)
Definition RouteKey (u : Uri) : Uri :=
  let idx := GoStrings.Index u "?" in
  if 0 <=? idx then GoStrings.slice_to u idx else u.

(** Modelled from the spec: [NextWildcard()] replaces the left-most host
    segment (past a wildcard marker already there) by the wildcard
    marker; with no segment left to replace it returns the key as it is,
    and an error. *)
Definition NextWildcard (u : Uri) : Uri * option string :=
  let uri := GoStrings.TrimPrefix u "*." in
  match from_dot uri with
  | None => (u, Some "no next wildcard available")
  | Some rest => ("*" ++ rest, None)
  end.

(** The fields of [s] between the bytes [c]: the first one, and the rest. *)
Fixpoint fields (c : ascii) (s : string) : string * list string :=
  match s with
  | EmptyString => (EmptyString, [])
  | String a s' =>
      let '(f, fs) := fields c s' in
      if Ascii.eqb a c then (EmptyString, f :: fs) else (String a f, fs)
  end.

(** Modelled from the spec: the trie segments of a key, its host
    segments in reverse-domain order. *)
Definition segments (u : Uri) : list string :=
  let '(f, fs) := fields "." u in rev (f :: fs).

(** The specificity of a key: what is left of it to generalise. *)
Definition specificity (u : Uri) : nat := String.length (GoStrings.TrimPrefix u "*.").

Lemma from_dot_suffix s rest :
  from_dot s = Some rest ->
  exists r, rest = String "." r /\ (String.length rest <= String.length s)%nat.
Proof.
  induction s as [|a s IH]; simpl; [discriminate|].
  destruct (Ascii.eqb a ".") eqn:E.
  - intros [= <-]. apply Ascii.eqb_eq in E. subst a. eauto.
  - intros Hs. destruct (IH Hs) as (r & -> & Hle). exists r. split; [done|]. simpl in *. lia.
Qed.

Lemma NextWildcard_shrinks u u' :
  NextWildcard u = (u', None) -> (specificity u' < specificity u)%nat.
Proof.
  unfold NextWildcard, specificity.
  destruct (from_dot (GoStrings.TrimPrefix u "*.")) as [rest|] eqn:E; [|discriminate].
  intros [= <-]. destruct (from_dot_suffix _ _ E) as (r & -> & Hle).
  change (GoStrings.TrimPrefix ("*" ++ String "." r) "*.") with (GoStrings.TrimPrefix (String "*" (String "." r)) "*.").
  unfold GoStrings.TrimPrefix at 1, GoStrings.HasPrefix. simpl.
  replace (String.prefix "" r) with true by (by destruct r).
  simpl in Hle. lia.
Qed.

#[export] Instance model : UriKeyModel := {|
  route.RouteKey := RouteKey;
  route.NextWildcard := NextWildcard;
  route.segments := segments;
  route.specificity := specificity;
  route.NextWildcard_decreases := NextWildcard_shrinks
|}.

End hostKeys.

(** ** Concrete routes, under the host key model *)
Module fixtures.

Import route container registry.

#[local] Existing Instance hostKeys.model.

(** The endpoint of the end-to-end example of the specification. *)
Definition e1 : Endpoint :=
  NewEndpoint "app1" "10.0.0.1" 6060 "instance-1" "0" ∅ 0 "" {| Guid := ""; Index := 0 |}.

(** A fresh registry after [Register("foo.example.com", e1)]. *)
Definition registered : RouteRegistry :=
  Register NewRouteRegistry "foo.example.com" e1 10 10.

(** The same with pruning suspended. *)
Definition suspended : RouteRegistry := SuspendPruning registered (fun _ => true).

(** The same after a tick under suspension and the end of the suspension:
    the status is DISCONNECTED and the predicate answers false. *)
Definition reconnecting : RouteRegistry :=
  SuspendPruning (pruneStaleDroplets suspended 50 (fun _ => 50)) (fun _ => false).

(** [reconnecting] with a droplet stale threshold of 120 seconds. *)
Definition reconnecting_120s : RouteRegistry :=
  {| byUri := byUri reconnecting; suspendPruning := suspendPruning reconnecting;
     pruningStatus := pruningStatus reconnecting;
     pruneStaleDropletsInterval := 30 * Second;
     dropletStaleThreshold := 120 * Second;
     ticker := ticker reconnecting; timeOfLastUpdate := timeOfLastUpdate reconnecting |}.

(** A registry message with the given route-service URL. *)
Definition message_with_url (url : string) : mbus.RegistryMessage :=
  {| mbus.Host := "10.0.0.1"; mbus.Port := 6060; mbus.Uris := ["foo.example.com"];
     mbus.Tags := ∅; mbus.App := "app1"; mbus.StaleThresholdInSeconds := 0;
     mbus.RouteServiceURL := url; mbus.PrivateInstanceID := "instance-1";
     mbus.PrivateInstanceIndex := "0" |}.

End fixtures.

(** ** More concrete routes and messages *)
Module moreFixtures.

Import route container registry mbus fixtures.

#[local] Existing Instance hostKeys.model.

(** An endpoint at another address, and one at the address of [e1] with
    another application id. *)
Definition e2 : Endpoint :=
  NewEndpoint "app1" "10.0.0.2" 6060 "instance-2" "1" ∅ 0 "" {| Guid := ""; Index := 0 |}.

Definition e1_redeployed : Endpoint :=
  NewEndpoint "app2" "10.0.0.1" 6060 "instance-9" "0" ∅ 0 "" {| Guid := ""; Index := 0 |}.

(** Two endpoints with staleness thresholds of their own, of one second
    and of 120 seconds. *)
Definition e_1s : Endpoint :=
  NewEndpoint "app1" "10.0.0.3" 6060 "instance-3" "2" ∅ 1 "" {| Guid := ""; Index := 0 |}.

Definition e_120s : Endpoint :=
  NewEndpoint "app1" "10.0.0.4" 6060 "instance-4" "3" ∅ 120 "" {| Guid := ""; Index := 0 |}.

(** A new registry with both under one URI, after a tick under suspension
    and the end of the suspension. *)
Definition reconnecting_mixed : RouteRegistry :=
  SuspendPruning
    (pruneStaleDroplets
       (SuspendPruning
          (Register (Register NewRouteRegistry "foo.example.com" e_1s 10 10)
                    "foo.example.com" e_120s 20 20)
          (fun _ => true))
       50 (fun _ => 50))
    (fun _ => false).

Definition register_message : Msg := {| Subject := "router.register"; Data := "{}" |}.
Definition unregister_message : Msg := {| Subject := "router.unregister"; Data := "{}" |}.

(** A valid message that lists one route twice, the second time with a
    query string, and a decoder that yields it. *)
Definition message_twice : RegistryMessage :=
  {| Host := "10.0.0.1"; Port := 6060;
     Uris := ["foo.example.com"; "foo.example.com?x=1"];
     mbus.Tags := ∅; App := "app1"; StaleThresholdInSeconds := 0;
     RouteServiceURL := ""; PrivateInstanceID := "instance-1";
     mbus.PrivateInstanceIndex := "0" |}.

Definition decoded_twice (_ : string) : RegistryMessage + string := inl message_twice.

(** A decoder that yields the valid message of the fixtures. *)
Definition decoded (_ : string) : RegistryMessage + string := inl (message_with_url "https://x").

End moreFixtures.

(** ** Notions the properties are stated with *)
Module notions.

Import route container registry.

(** Every Pool the trie holds has an endpoint. *)
Definition PoolsNonEmpty (t : Trie) : Prop :=
  forall path pool, find_path path t = Some pool -> IsEmpty pool = false.

(** What is left of a node after [delete_path]. *)
Definition after_delete (path : list string) (t : Trie) : option Trie :=
  match delete_path path t with
  | None => Some t
  | Some o => o
  end.

(** The height of a trie, the measure of the induction on tries. *)
Fixpoint height (t : Trie) : nat :=
  match t with
  | TrieNode _ cs => S (map_fold (fun _ c acc => Nat.max (height c) acc) O cs)
  end.

(** What [Snip] does to the Pool reference of a visited node. *)
Definition snipped (v : visitor) (p : option route.Pool) : option route.Pool :=
  if thenSnip v then live p else p.

(** The context path before the query string is cut off: "/", followed
    by what comes after the first "/" of the URI (a leading "/" apart). *)
Definition uncutContextPath (uri : Uri) : string :=
  match GoStrings.SplitN_2 (GoStrings.TrimPrefix (Uri_String uri) "/") "/" with
  | _ :: split1 :: _ => "/" ++ split1
  | _ => "/"
  end.

Section chains.
Context `{UriKeyModel}.

(** The generalisation chain of a key: the keys [NextWildcard] yields
    one after the other, down to and including the key it returns with
    the exhaustion signal ([Lookup] hands that one to [MatchUri] too). *)
Inductive generalizations : Uri -> list Uri -> Prop :=
  | gen_exhausted u u' msg :
      NextWildcard u = (u', Some msg) -> generalizations u [u']
  | gen_next u u' ks :
      NextWildcard u = (u', None) -> generalizations u' ks -> generalizations u (u' :: ks).

(** The Pool of the first key of a list that [MatchUri] finds. *)
Fixpoint firstMatch (t : Trie) (keys : list Uri) : option route.Pool :=
  match keys with
  | [] => None
  | k :: ks =>
      match MatchUri t k with
      | Some pool => Some pool
      | None => firstMatch t ks
      end
  end.

(** What one tick of the pruning cycle makes of the Pool at the node
    below [path]. *)
Definition tickPool (r : RouteRegistry) (now : Time) (clock : list string -> Time)
    (path : list string) (pool : route.Pool) : route.Pool :=
  if suspendPruning r tt then pool
  else
    fst (PruneEndpoints
           match pruningStatus r with
           | DISCONNECTED => MarkUpdated pool now
           | CONNECTED => pool
           end
           (dropletStaleThreshold r) (clock path)).

(** The registries the operations produce, from one whose trie is empty. *)
Inductive Reachable : RouteRegistry -> Prop :=
  | reach_new r : byUri r = NewTrie -> Reachable r
  | reach_Register r uri e t tPut : Reachable r -> Reachable (Register r uri e t tPut)
  | reach_Unregister r uri e : Reachable r -> Reachable (Unregister r uri e)
  | reach_tick r now clock : Reachable r -> Reachable (pruneStaleDroplets r now clock)
  | reach_SuspendPruning r f : Reachable r -> Reachable (SuspendPruning r f)
  | reach_Start r : Reachable r -> Reachable (StartPruningCycle r)
  | reach_Stop r : Reachable r -> Reachable (StopPruningCycle r).

End chains.

End notions.

(** ** Further notions: what the operations produce from a new registry,
    and the calls of the subscriber by kind *)
Module moreNotions.

Import route container registry.

(** The call is a [Register]. *)
Definition isRegister (c : mbus.RegistryCall) : bool :=
  match c with
  | mbus.CallRegister _ _ => true
  | mbus.CallUnregister _ _ => false
  end.

(** The URI and the endpoint a call carries. *)
Definition callUri (c : mbus.RegistryCall) : Uri :=
  match c with
  | mbus.CallRegister uri _ => uri
  | mbus.CallUnregister uri _ => uri
  end.

Definition callEndpoint (c : mbus.RegistryCall) : Endpoint :=
  match c with
  | mbus.CallRegister _ e => e
  | mbus.CallUnregister _ e => e
  end.

(** The entry a [Register] of [e] leaves when [Put] reads the clock at [t]. *)
Definition entryOf (e : Endpoint) (t : Time) : endpointElem := {| endpoint := e; updated := t |}.

Section produced.
Context `{UriKeyModel}.

(** The registries a program gets from [NewRouteRegistry()] through the
    methods of the registry, the ticks of its pruning cycle included. *)
Inductive Produced : RouteRegistry -> Prop :=
  | prod_new : Produced NewRouteRegistry
  | prod_Register r uri e t tPut : Produced r -> Produced (Register r uri e t tPut)
  | prod_Unregister r uri e : Produced r -> Produced (Unregister r uri e)
  | prod_tick r now clock : Produced r -> Produced (pruneStaleDroplets r now clock)
  | prod_SuspendPruning r f : Produced r -> Produced (SuspendPruning r f)
  | prod_Start r : Produced r -> Produced (StartPruningCycle r)
  | prod_Stop r : Produced r -> Produced (StopPruningCycle r).

(** The Pool at the route key of [uri] holds an entry for the endpoint
    [e] under its canonical address. *)
Definition routed (r : RouteRegistry) (uri : Uri) (e : Endpoint) : Prop :=
  exists pool el,
    Find (byUri r) (RouteKey uri) = Some pool
    /\ endpoints pool !! CanonicalAddr e = Some el
    /\ endpoint el = e.

(** No Pool at the route key of [uri] holds the canonical address of [e]. *)
Definition unrouted (r : RouteRegistry) (uri : Uri) (e : Endpoint) : Prop :=
  forall pool,
    Find (byUri r) (RouteKey uri) = Some pool -> endpoints pool !! CanonicalAddr e = None.

End produced.

End moreNotions.

(** ** Properties of the trie *)
Module TrieFacts.

Import route container notions.

Lemma isLeaf_true t : isLeaf t = true <-> ChildNodes t = ∅.
Proof. unfold isLeaf. rewrite Nat.eqb_eq. apply map_size_empty_iff. Qed.

Lemma IsEmpty_true p : IsEmpty p = true <-> endpoints p = ∅.
Proof. unfold IsEmpty. rewrite Nat.eqb_eq. apply map_size_empty_iff. Qed.

Lemma IsEmpty_false p : IsEmpty p = false <-> endpoints p ≠ ∅.
Proof. rewrite <- IsEmpty_true. by destruct (IsEmpty p). Qed.

Lemma useless_true t : useless t = true <-> Pool t = None /\ ChildNodes t = ∅.
Proof.
  unfold useless. destruct (Pool t).
  - split; [discriminate | by intros [? _]].
  - rewrite isLeaf_true. tauto.
Qed.

Lemma find_path_NewTrie path : find_path path NewTrie = None.
Proof. destruct path; [done|]. simpl. by rewrite lookup_empty. Qed.

Lemma find_path_useless path t : useless t = true -> find_path path t = None.
Proof.
  intros [Hp Hc]%useless_true. destruct path; simpl; [done|]. by rewrite Hc, lookup_empty.
Qed.

Lemma find_insert_path path pool t : find_path path (insert_path path pool t) = Some pool.
Proof.
  revert t. induction path as [|s rest IH]; intros t; simpl; [done|].
  by rewrite lookup_insert_eq.
Qed.

Lemma find_insert_path_ne path q pool t :
  path ≠ q -> find_path q (insert_path path pool t) = find_path q t.
Proof.
  revert q t. induction path as [|s rest IH]; intros [|s' rest'] t Hne; simpl; try done.
  destruct (decide (s = s')) as [->|Hs].
  - rewrite lookup_insert_eq, IH by congruence.
    destruct (ChildNodes t !! s'); simpl; [done | apply find_path_NewTrie].
  - by rewrite lookup_insert_ne.
Qed.

Lemma find_mutate_path f path q t :
  find_path q (mutate_path f path t) =
  if decide (path = q) then f <$> find_path q t else find_path q t.
Proof.
  revert q t. induction path as [|s rest IH]; intros [|s' rest'] t; simpl; try done.
  destruct (decide (s = s')) as [->|Hs].
  - rewrite lookup_alter_eq. destruct (ChildNodes t !! s') as [c|]; simpl.
    + rewrite IH. repeat case_decide; congruence.
    + by case_decide.
  - rewrite lookup_alter_ne by done. case_decide; [congruence | done].
Qed.

Lemma mutate_path_id f path t :
  (forall pool, find_path path t = Some pool -> f pool = pool) -> mutate_path f path t = t.
Proof.
  revert t. induction path as [|s rest IH]; intros [p cs] Hf; simpl in *.
  - destruct p as [pool|]; simpl; [|done]. by rewrite Hf.
  - f_equal. apply alter_id. intros c Hc. apply IH. by rewrite Hc in Hf.
Qed.

Lemma live_nonempty p : (forall pool, p = Some pool -> IsEmpty pool = false) -> live p = p.
Proof. destruct p as [pool|]; simpl; [|done]. intros Hp. by rewrite (Hp pool). Qed.

Lemma live_Some p pool : live p = Some pool <-> p = Some pool /\ IsEmpty pool = false.
Proof.
  destruct p as [q|]; simpl.
  - destruct (IsEmpty q) eqn:E; split.
    + discriminate.
    + intros [[= ->] ?]. congruence.
    + intros [= ->]. done.
    + intros [[= ->] _]. done.
  - split; [discriminate | by intros [? _]].
Qed.

Lemma delete_path_absent path t : delete_path path t = None -> find_path path t = None.
Proof.
  revert t. induction path as [|s rest IH]; intros t; simpl; [done|].
  destruct (ChildNodes t !! s) as [c|]; [|done].
  destruct (delete_path rest c) as [[c'|]|] eqn:E; try done. intros _. by apply IH.
Qed.

Lemma find_after_delete path t q :
  (forall q pool, q ≠ path -> find_path q t = Some pool -> IsEmpty pool = false) ->
  after_delete path t ≫= find_path q = if decide (q = path) then None else find_path q t.
Proof.
  unfold after_delete. revert t q. induction path as [|s rest IH]; intros [p cs] q Hne.
  - simpl. unfold Snip. simpl. destruct (useless _) eqn:U; simpl.
    + apply useless_true in U as [_ U]. simpl in U. subst cs.
      destruct q; simpl; [done|]. by rewrite lookup_empty.
    + destruct q; simpl; done.
  - simpl. destruct (cs !! s) as [c|] eqn:Hc.
    2:{ simpl. case_decide as Hq; [|done]. subst q. simpl. by rewrite Hc. }
    assert (Hc' : forall q pool, q ≠ rest -> find_path q c = Some pool -> IsEmpty pool = false).
    { intros q' pool Hq' Hf. apply (Hne (s :: q') pool); [congruence|]. simpl. by rewrite Hc. }
    specialize (IH c). destruct (delete_path rest c) as [[c'|]|] eqn:E; simpl.
    + destruct q as [|s' q']; simpl; [done|].
      destruct (decide (s = s')) as [<-|Hs].
      * rewrite lookup_insert_eq, Hc. specialize (IH q' Hc'). simpl in IH. rewrite IH.
        repeat case_decide; congruence.
      * rewrite lookup_insert_ne by done. case_decide; [congruence|done].
    + assert (Hp : live p = p).
      { apply live_nonempty. intros pool ->. by apply (Hne [] pool). }
      assert (Hgone : forall q', q' ≠ rest -> find_path q' c = None).
      { intros q' Hq'. specialize (IH q' Hc'). simpl in IH. by rewrite decide_False in IH. }
      unfold Snip. simpl. rewrite Hp. destruct (useless _) eqn:U; simpl.
      * apply useless_true in U as [Up Uc]. simpl in *. subst p.
        case_decide as Hq; [done|]. destruct q as [|s' q']; simpl; [done|].
        destruct (decide (s = s')) as [<-|Hs].
        -- rewrite Hc. symmetry. apply Hgone. congruence.
        -- assert (cs !! s' = None) as ->; [|done].
           rewrite <- (lookup_delete_ne cs s s') by done. by rewrite Uc, lookup_empty.
      * destruct q as [|s' q']; simpl; [done|].
        destruct (decide (s = s')) as [<-|Hs].
        -- rewrite lookup_delete_eq, Hc. case_decide; [done|]. symmetry. apply Hgone. congruence.
        -- rewrite lookup_delete_ne by done. case_decide; [congruence|done].
    + case_decide as Hq; [|done]. subst q. simpl. rewrite Hc. by apply delete_path_absent.
Qed.

Lemma find_root o q : find_path q (root o) = o ≫= find_path q.
Proof. destruct o; simpl; [done|]. apply find_path_NewTrie. Qed.

Lemma height_child p cs s c : cs !! s = Some c -> (height c < height (TrieNode p cs))%nat.
Proof.
  simpl. revert s c.
  induction cs as [|i x m Hi Hfold IH] using map_first_key_ind; intros s c Hc.
  - by rewrite lookup_empty in Hc.
  - rewrite map_fold_insert_first_key by done.
    destruct (decide (i = s)) as [->|Hne].
    + rewrite lookup_insert_eq in Hc. injection Hc as ->. lia.
    + rewrite lookup_insert_ne in Hc by done. specialize (IH _ _ Hc). lia.
Qed.

(** Induction on a trie: a property holds of a node once it holds of
    its children. *)
Lemma Trie_child_ind (P : Trie -> Prop) :
  (forall p cs, (forall s c, cs !! s = Some c -> P c) -> P (TrieNode p cs)) ->
  forall t, P t.
Proof.
  intros Hnode t. remember (height t) as n eqn:Hn. revert t Hn.
  induction n as [n IH] using lt_wf_ind. intros [p cs] Hn. apply Hnode.
  intros s c Hc. apply (IH (height c)); [|done]. subst n. by eapply height_child.
Qed.

Lemma find_visit v t : forall pre q,
  visit v pre t ≫= find_path q = snipped v (onPool v (pre ++ q) <$> find_path q t).
Proof.
  induction t as [p cs IH] using Trie_child_ind. intros pre q.
  assert (Hchild : forall s rest,
    map_imap (fun s c => visit v (pre ++ [s]) c) cs !! s ≫= find_path rest
    = snipped v (onPool v (pre ++ s :: rest) <$> (cs !! s ≫= find_path rest))).
  { intros s rest. rewrite map_lookup_imap. destruct (cs !! s) as [c|] eqn:Hc; simpl.
    - rewrite (IH s c Hc). by rewrite <- app_assoc.
    - unfold snipped. by destruct (thenSnip v). }
  simpl. unfold snipped in *. destruct (thenSnip v) eqn:Hsnip.
  - destruct (useless (TrieNode _ _) && negb (useless (TrieNode p cs))) eqn:U; simpl.
    + apply andb_true_iff in U as [U _]. apply useless_true in U as [Up Uc]. simpl in *.
      destruct q as [|s rest]; simpl.
      * by rewrite app_nil_r, Up.
      * specialize (Hchild s rest). rewrite Uc, lookup_empty in Hchild. simpl in Hchild.
        destruct (cs !! s); simpl in *; done.
    + destruct q as [|s rest]; simpl.
      * by rewrite app_nil_r.
      * specialize (Hchild s rest).
        destruct (map_imap _ cs !! s), (cs !! s); simpl in *; done.
  - simpl. destruct q as [|s rest]; simpl.
    + by rewrite app_nil_r.
    + specialize (Hchild s rest).
      destruct (map_imap _ cs !! s), (cs !! s); simpl in *; done.
Qed.

Lemma find_EachNodeWithPool v t q :
  find_path q (EachNodeWithPool v t) = snipped v (onPool v q <$> find_path q t).
Proof. unfold EachNodeWithPool. rewrite find_root. apply find_visit. Qed.


End TrieFacts.

(** ** Properties of the registry *)
Module RegistryFacts.
Import route container registry notions TrieFacts.

Section facts.
Context `{UriKeyModel}.

Lemma Put_nonempty pool e now : IsEmpty (Put pool e now) = false.
Proof.
  apply IsEmpty_false. simpl. intros Hm.
  apply (f_equal (lookup (CanonicalAddr e))) in Hm.
  by rewrite lookup_insert_eq, lookup_empty in Hm.
Qed.

(** The trie after [Register]: the Pool at the route key holds the
    endpoint, every other Pool is as before. *)
Lemma find_Register r uri e t tPut q :
  find_path q (byUri (Register r uri e t tPut)) =
  if decide (segments (RouteKey uri) = q)
  then Some (Put (default (NewPool (Z.quot (dropletStaleThreshold r) 4) (parseContextPath uri))
                    (Find (byUri r) (RouteKey uri))) e tPut)
  else find_path q (byUri r).
Proof.
  unfold Register, mutate_pool, Find, Insert. simpl.
  rewrite find_mutate_path. case_decide as Hq.
  - subst q. destruct (find_path _ (byUri r)) as [pool|] eqn:E; simpl.
    + by rewrite E.
    + by rewrite find_insert_path.
  - destruct (find_path _ (byUri r)); [done|]. by apply find_insert_path_ne.
Qed.

Lemma lookupLoop_stops fuel t uri err pool :
  (is_Some pool \/ is_Some err) -> lookupLoop fuel t uri err pool = Some pool.
Proof. destruct fuel, pool, err; simpl; try done; intros [[? [=]]|[? [=]]]. Qed.

Lemma Lookup_hit r uri pool :
  MatchUri (byUri r) (RouteKey uri) = Some pool -> Lookup r uri = Some pool.
Proof. unfold Lookup. intros ->. by rewrite lookupLoop_stops by eauto. Qed.

Lemma firstMatch_single t k : firstMatch t [k] = MatchUri t k.
Proof. simpl. by destruct (MatchUri t k). Qed.

Lemma firstMatch_None t ks :
  firstMatch t ks = None <-> Forall (fun k => MatchUri t k = None) ks.
Proof.
  induction ks as [|k ks IH]; simpl.
  - split; [constructor | done].
  - destruct (MatchUri t k) eqn:E.
    + split; [done|]. intros Hall. apply Forall_cons in Hall as [Hk _]. congruence.
    + rewrite IH. split; [by constructor | by intros [_ ?]%Forall_cons].
Qed.

(** The loop ends: [specificity uri + 1] rounds are enough, and what it
    returns is the first match along the generalisation chain. *)
Lemma lookupLoop_ends t fuel uri :
  (specificity uri < fuel)%nat ->
  exists ks, generalizations uri ks /\
    lookupLoop fuel t uri None None = Some (firstMatch t ks).
Proof.
  revert uri. induction fuel as [|fuel IH]; intros uri Hlt; [lia|].
  simpl. destruct (NextWildcard uri) as [u' [msg|]] eqn:Hnw.
  - exists [u']. split; [by econstructor|].
    rewrite lookupLoop_stops by eauto. by rewrite firstMatch_single.
  - pose proof (NextWildcard_decreases _ _ Hnw) as Hdec.
    destruct (IH u') as (ks & Hks & Hloop); [lia|].
    exists (u' :: ks). split; [by econstructor|]. simpl.
    destruct (MatchUri t u') as [pool|] eqn:Hm.
    + by rewrite lookupLoop_stops by eauto.
    + done.
Qed.

Lemma generalizations_fun u ks1 ks2 :
  generalizations u ks1 -> generalizations u ks2 -> ks1 = ks2.
Proof.
  intros H1. revert ks2. induction H1 as [u u' msg Hnw|u u' ks Hnw _ IH]; intros ks2 H2.
  - inversion H2; subst; congruence.
  - inversion H2 as [? ? ? Hnw2|? ? ? Hnw2 Hks2]; subst; [congruence|].
    assert (u' = u'0) by congruence. subst. f_equal. by apply IH.
Qed.


Lemma find_Delete t key q :
  find_path q (Delete t key) = after_delete (segments key) t ≫= find_path q.
Proof.
  unfold Delete, after_delete. destruct (delete_path _ t) as [o|]; [|done]. apply find_root.
Qed.

(** The trie after [Unregister]: the Pool at the route key has lost the
    endpoint and is gone if that emptied it, every other Pool is as before. *)
Lemma find_Unregister r uri e q :
  PoolsNonEmpty (byUri r) ->
  find_path q (byUri (Unregister r uri e)) =
  if decide (q = segments (RouteKey uri))
  then live ((fun pool => Remove pool e) <$> find_path q (byUri r))
  else find_path q (byUri r).
Proof.
  intros Hinv. unfold Unregister, Find, mutate_pool.
  destruct (find_path (segments (RouteKey uri)) (byUri r)) as [pool|] eqn:E.
  - destruct (IsEmpty (Remove pool e)) eqn:Hempty; simpl.
    + rewrite find_Delete, find_after_delete.
      * case_decide as Hq; [subst q; by rewrite E; simpl; rewrite Hempty|].
        rewrite find_mutate_path. by rewrite decide_False by congruence.
      * intros q' pool' Hq'. rewrite find_mutate_path, decide_False by congruence. apply Hinv.
    + rewrite find_mutate_path. case_decide as Hq.
      * subst q. rewrite decide_True, E by done. simpl. by rewrite Hempty.
      * by rewrite decide_False by congruence.
  - case_decide as Hq; [|done]. subst q. by rewrite E.
Qed.

Lemma find_freshenRoutes r now q :
  find_path q (byUri (freshenRoutes r now)) = (fun pool => MarkUpdated pool now) <$> find_path q (byUri r).
Proof. unfold freshenRoutes. simpl. by rewrite find_EachNodeWithPool. Qed.

(** The trie after a tick that is not suspended: the Pool below every
    path is what the tick made of it, and is gone if that is empty. *)
Lemma find_tick_running r now clock q :
  suspendPruning r tt = false ->
  find_path q (byUri (pruneStaleDroplets r now clock)) =
  live (tickPool r now clock q <$> find_path q (byUri r)).
Proof.
  intros Hs. unfold pruneStaleDroplets, tickPool. rewrite Hs.
  destruct (pruningStatus r);
    cbn [byUri set_pruningStatus set_byUri dropletStaleThreshold freshenRoutes];
    rewrite !find_EachNodeWithPool; unfold snipped; cbn [thenSnip onPool].
  - done.
  - by destruct (find_path q (byUri r)).
Qed.

Lemma find_pruneStaleDroplets r now clock q :
  PoolsNonEmpty (byUri r) ->
  find_path q (byUri (pruneStaleDroplets r now clock)) =
  live (tickPool r now clock q <$> find_path q (byUri r)).
Proof.
  intros Hinv. destruct (suspendPruning r tt) eqn:Hs; [|by apply find_tick_running].
  unfold pruneStaleDroplets, tickPool. rewrite Hs. simpl.
  destruct (find_path q (byUri r)) as [pool|] eqn:E; simpl; [|done].
  by rewrite (Hinv _ _ E).
Qed.

Lemma PoolsNonEmpty_NewTrie : PoolsNonEmpty NewTrie.
Proof. intros q pool. by rewrite find_path_NewTrie. Qed.

Lemma PoolsNonEmpty_Register r uri e t tPut :
  PoolsNonEmpty (byUri r) -> PoolsNonEmpty (byUri (Register r uri e t tPut)).
Proof.
  intros Hinv q pool. rewrite find_Register. case_decide.
  - intros [= <-]. apply Put_nonempty.
  - apply Hinv.
Qed.

Lemma PoolsNonEmpty_Unregister r uri e :
  PoolsNonEmpty (byUri r) -> PoolsNonEmpty (byUri (Unregister r uri e)).
Proof.
  intros Hinv q pool. rewrite find_Unregister by done. case_decide.
  - by intros [_ ?]%live_Some.
  - apply Hinv.
Qed.

Lemma PoolsNonEmpty_pruneStaleDroplets r now clock :
  PoolsNonEmpty (byUri r) -> PoolsNonEmpty (byUri (pruneStaleDroplets r now clock)).
Proof.
  intros Hinv q pool. rewrite find_pruneStaleDroplets by done. by intros [_ ?]%live_Some.
Qed.

(** Every registry the operations produce keeps its Pools non-empty. *)
Lemma Reachable_PoolsNonEmpty r : Reachable r -> PoolsNonEmpty (byUri r).
Proof.
  induction 1 as [r Hnew| | | | |r Hr IH|r Hr IH].
  - rewrite Hnew. apply PoolsNonEmpty_NewTrie.
  - by apply PoolsNonEmpty_Register.
  - by apply PoolsNonEmpty_Unregister.
  - by apply PoolsNonEmpty_pruneStaleDroplets.
  - done.
  - unfold StartPruningCycle. by destruct (0 <? _).
  - unfold StopPruningCycle. by destruct (ticker r).
Qed.


(** C1. Register then Lookup: for every URI [u] and endpoint [e], after
    [Register(u, e)] the call [Lookup(u)] returns a Pool (not nil) that
    holds an endpoint whose canonical address is that of [e]. *)
Theorem Register_then_Lookup r u e t tPut :
  exists pool el,
    Lookup (Register r u e t tPut) u = Some pool
    /\ endpoints pool !! CanonicalAddr e = Some el
    /\ CanonicalAddr (endpoint el) = CanonicalAddr e.
Proof.
  eexists _, _. split; [|split].
  - apply Lookup_hit. unfold MatchUri. rewrite find_Register. by rewrite decide_True.
  - simpl. apply lookup_insert_eq.
  - done.
Qed.

(** C3. Lookup and the generalisation chain: [Lookup(uri)] normalises
    [uri] with [RouteKey], tries [MatchUri] on that key and, on a miss,
    on each key [NextWildcard] yields in turn; it returns the first Pool
    found, and nil exactly when no key of the chain matches, the chain
    ending where [NextWildcard] signals exhaustion. The loop ends within
    the rounds [Lookup] allows it. *)
Theorem Lookup_generalization_chain r uri :
  let key := RouteKey uri in
  exists ks,
    generalizations key ks
    /\ lookupLoop (S (specificity key)) (byUri r) key None (MatchUri (byUri r) key)
       = Some (Lookup r uri)
    /\ Lookup r uri = firstMatch (byUri r) (key :: ks)
    /\ (Lookup r uri = None <-> Forall (fun k => MatchUri (byUri r) k = None) (key :: ks)).
Proof.
  intros key.
  destruct (lookupLoop_ends (byUri r) (S (specificity key)) key) as (ks & Hks & Hloop); [lia|].
  assert (Hrun : lookupLoop (S (specificity key)) (byUri r) key None (MatchUri (byUri r) key)
                 = Some (firstMatch (byUri r) (key :: ks))).
  { cbn [firstMatch]. destruct (MatchUri (byUri r) key) as [pool|] eqn:Hm.
    - by rewrite lookupLoop_stops by eauto.
    - exact Hloop. }
  assert (HL : Lookup r uri = firstMatch (byUri r) (key :: ks)).
  { unfold Lookup. fold key. by rewrite Hrun. }
  exists ks. split; [done|]. split; [by rewrite HL|]. split; [done|].
  rewrite HL. apply firstMatch_None.
Qed.

(** On a miss of its [Lookup], [LookupWithInstance] calls [Each] on a nil
    Pool and panics. *)
Lemma LookupWithInstance_miss r uri appId appIndex tPut :
  Lookup r (RouteKey uri) = None ->
  LookupWithInstance r uri appId appIndex tPut = Panics.
Proof. unfold LookupWithInstance. by intros ->. Qed.

(** On a hit of its [Lookup], [LookupWithInstance] returns: nil when no
    endpoint of the Pool has both the application id and the instance
    index, else a new Pool holding one endpoint that has both and
    nothing else. *)
Lemma LookupWithInstance_hit_returns r uri appId appIndex tPut p :
  Lookup r (RouteKey uri) = Some p ->
  exists res,
    LookupWithInstance r uri appId appIndex tPut = Returns res
    /\ (res = None <->
        Forall (fun e => ApplicationId e = appId /\ PrivateInstanceIndex e = appIndex -> False)
               (endpoint_list p))
    /\ forall pool, res = Some pool ->
         exists e, e ∈ endpoint_list p
           /\ ApplicationId e = appId /\ PrivateInstanceIndex e = appIndex
           /\ pool = Put (NewPool 0 "") e tPut.
Proof.
  intros Hp. unfold LookupWithInstance. rewrite Hp. unfold Each. eexists. split; [done|].
  induction (endpoint_list p) as [|e l [IHnone IHsome]] using rev_ind.
  - cbn [foldl]. split; [split; [intros _; constructor | done] | intros pool [=]].
  - rewrite foldl_app. cbn [foldl].
    destruct (String.eqb (ApplicationId e) appId && String.eqb (PrivateInstanceIndex e) appIndex)
      eqn:E.
    + apply andb_true_iff in E as [Ea Ei]. apply String.eqb_eq in Ea, Ei. split.
      * split; [done|]. intros Hall. rewrite Forall_app, Forall_singleton in Hall.
        destruct Hall as [_ Hlast]. exfalso. apply Hlast. by split.
      * intros pool [= <-]. exists e.
        split; [apply elem_of_app; right; by apply list_elem_of_singleton | done].
    + assert (Hno : ApplicationId e = appId /\ PrivateInstanceIndex e = appIndex -> False).
      { intros [Ea Ei]. apply String.eqb_eq in Ea, Ei. by rewrite Ea, Ei in E. }
      split.
      * rewrite IHnone, Forall_app, Forall_singleton. tauto.
      * intros pool Hpool. destruct (IHsome pool Hpool) as (e' & He' & Hm).
        exists e'. split; [apply elem_of_app; by left | done].
Qed.

(** C4. Unregister: the URI is normalised; a Pool found at that key loses
    the endpoint with the canonical address of [e], and the key is
    deleted from the trie exactly when that empties the Pool; when the URI
    has no Pool, or the endpoint is not in the Pool, the registry is left
    as it was. No other key and no other field changes, and the call
    always returns. Stated for a registry whose Pools are non-empty, as
    every registry the operations produce is. *)
Theorem Unregister_removes_or_noop r uri e :
  PoolsNonEmpty (byUri r) ->
  let key := RouteKey uri in
  let r' := Unregister r uri e in
  r' = set_byUri r (byUri r')
  /\ match Find (byUri r) key with
     | Some pool =>
         endpoints (Remove pool e) !! CanonicalAddr e = None
         /\ (forall a, a ≠ CanonicalAddr e -> endpoints (Remove pool e) !! a = endpoints pool !! a)
         /\ Find (byUri r') key =
            (if IsEmpty (Remove pool e) then None else Some (Remove pool e))
         /\ (endpoints pool !! CanonicalAddr e = None -> r' = r)
     | None => r' = r
     end
  /\ (forall q, q ≠ segments key -> find_path q (byUri r') = find_path q (byUri r)).
Proof.
  intros Hinv key r'. split; [|split].
  - subst r'. unfold Unregister. fold key.
    destruct (Find (byUri r) key); [destruct (IsEmpty _)|]; by destruct r.
  - destruct (Find (byUri r) key) as [pool|] eqn:E.
    + split; [apply lookup_delete_eq|]. split; [intros a Ha; by apply lookup_delete_ne|].
      split.
      * unfold Find in *. subst r'. rewrite find_Unregister by done.
        rewrite decide_True by done. fold key. by rewrite E.
      * intros Habsent. subst r'. unfold Unregister. fold key. rewrite E.
        assert (Hsame : Remove pool e = pool).
        { unfold Remove. rewrite delete_id by done. by destruct pool. }
        rewrite Hsame, (Hinv _ _ E).
        unfold mutate_pool. rewrite mutate_path_id; [by destruct r|].
        unfold Find in E. fold key. rewrite E. by intros ? [= <-].
    + subst r'. unfold Unregister. fold key. by rewrite E.
  - intros q Hq. subst r'. rewrite find_Unregister by done. by rewrite decide_False.
Qed.

(** C5. A Pool leaves the trie exactly when it becomes empty. In a
    registry whose Pools are non-empty: [Register] removes no Pool and
    leaves the one it touched non-empty; [Unregister] and the pruning
    tick leave below each path the Pool they made of the one that was
    there, unless that one is empty, in which case none is left
    ([live]); so after each of them every Pool the trie holds is
    non-empty again. *)
Theorem pool_removed_exactly_when_empty r :
  PoolsNonEmpty (byUri r) ->
  (forall uri e t tPut,
      let r' := Register r uri e t tPut in
      PoolsNonEmpty (byUri r')
      /\ forall q pool, find_path q (byUri r) = Some pool -> is_Some (find_path q (byUri r')))
  /\ (forall uri e,
      let r' := Unregister r uri e in
      PoolsNonEmpty (byUri r')
      /\ forall q,
           find_path q (byUri r') =
           if decide (q = segments (RouteKey uri))
           then live ((fun pool => Remove pool e) <$> find_path q (byUri r))
           else find_path q (byUri r))
  /\ (forall now clock,
      let r' := pruneStaleDroplets r now clock in
      PoolsNonEmpty (byUri r')
      /\ forall q,
           find_path q (byUri r') = live (tickPool r now clock q <$> find_path q (byUri r))).
Proof.
  intros Hinv. split; [|split].
  - intros uri e t tPut r'. split; [by apply PoolsNonEmpty_Register|].
    intros q pool Hq. subst r'. rewrite find_Register. case_decide; [eauto|]. by rewrite Hq.
  - intros uri e r'. split; [by apply PoolsNonEmpty_Unregister|].
    intros q. by apply find_Unregister.
  - intros now clock r'. split; [by apply PoolsNonEmpty_pruneStaleDroplets|].
    intros q. by apply find_pruneStaleDroplets.
Qed.


(** C6, as amended. A tick under a suspend predicate that answers true
    sets the pruning status to DISCONNECTED and changes nothing else: the
    trie with every Pool and every timestamp, and every other field of the
    registry, are as before; a registry that was DISCONNECTED already is
    left as it was. *)
Theorem suspended_tick_changes_only_status r now clock :
  suspendPruning r tt = true ->
  let r' := pruneStaleDroplets r now clock in
  pruningStatus r' = DISCONNECTED
  /\ byUri r' = byUri r
  /\ suspendPruning r' = suspendPruning r
  /\ pruneStaleDropletsInterval r' = pruneStaleDropletsInterval r
  /\ dropletStaleThreshold r' = dropletStaleThreshold r
  /\ ticker r' = ticker r
  /\ timeOfLastUpdate r' = timeOfLastUpdate r
  /\ (pruningStatus r = DISCONNECTED -> r' = r).
Proof.
  intros Hs r'. subst r'. unfold pruneStaleDroplets. rewrite Hs.
  repeat (split; [done|]). intros Hd. destruct r. simpl in *. by subst.
Qed.

Lemma effectiveThreshold_MarkUpdated pool thr now el :
  effectiveThreshold (MarkUpdated pool now) thr {| endpoint := endpoint el; updated := now |}
  = effectiveThreshold pool thr el.
Proof. done. Qed.

(** A Pool whose endpoints were all marked updated at [now] loses none of
    them to an eviction that reads the clock at [later], when no
    threshold is shorter than the time that passed in between. *)
Lemma PruneEndpoints_MarkUpdated pool thr now later :
  (forall a el, endpoints pool !! a = Some el -> later - now <= effectiveThreshold pool thr el) ->
  fst (PruneEndpoints (MarkUpdated pool now) thr later) = MarkUpdated pool now.
Proof.
  intros Hthr. unfold PruneEndpoints. cbn [fst].
  rewrite map_filter_id; [done|].
  intros a el'. cbn [MarkUpdated with_endpoints endpoints]. rewrite lookup_fmap.
  destruct (endpoints pool !! a) as [el|] eqn:Ha; [|done]. intros [= <-].
  cbn [snd]. unfold stale. rewrite effectiveThreshold_MarkUpdated. cbn [updated].
  apply Z.ltb_ge. by eapply Hthr.
Qed.

Lemma IsEmpty_MarkUpdated pool now : IsEmpty (MarkUpdated pool now) = IsEmpty pool.
Proof. unfold IsEmpty. simpl. by rewrite map_size_fmap. Qed.

(** C7, as amended. A tick on a DISCONNECTED registry whose suspend
    predicate answers false first marks every endpoint of every Pool as
    updated at the current time, then runs the eviction pass over the
    refreshed Pools, and leaves the status CONNECTED. Endpoint by
    endpoint: an endpoint whose staleness threshold in force is at least
    the time between the refresh's reading of the clock and the
    eviction's is not evicted on that tick, whatever becomes of the other
    endpoints: it stays in its Pool with its timestamp refreshed; an
    endpoint whose threshold is shorter than that time is evicted. When
    no threshold is shorter, every Pool is kept whole. *)
Theorem reconnect_tick_refreshes_then_evicts r now clock :
  pruningStatus r = DISCONNECTED ->
  suspendPruning r tt = false ->
  let r' := pruneStaleDroplets r now clock in
  let refreshed := freshenRoutes r now in
  pruningStatus r' = CONNECTED
  /\ (forall q, find_path q (byUri refreshed)
               = (fun pool => MarkUpdated pool now) <$> find_path q (byUri r))
  /\ (forall pool a, endpoints (MarkUpdated pool now) !! a
               = (fun el => {| endpoint := endpoint el; updated := now |}) <$> endpoints pool !! a)
  /\ (forall q, find_path q (byUri r')
               = live ((fun pool => fst (PruneEndpoints pool (dropletStaleThreshold r) (clock q)))
                         <$> find_path q (byUri refreshed)))
  /\ (forall q pool a el,
        find_path q (byUri r) = Some pool -> endpoints pool !! a = Some el ->
        clock q - now <= effectiveThreshold pool (dropletStaleThreshold r) el ->
        exists pool',
          find_path q (byUri r') = Some pool'
          /\ endpoints pool' !! a = Some {| endpoint := endpoint el; updated := now |})
  /\ (forall q pool a el,
        find_path q (byUri r) = Some pool -> endpoints pool !! a = Some el ->
        effectiveThreshold pool (dropletStaleThreshold r) el < clock q - now ->
        forall pool', find_path q (byUri r') = Some pool' -> endpoints pool' !! a = None)
  /\ ((forall q pool a el,
          find_path q (byUri r) = Some pool -> endpoints pool !! a = Some el ->
          clock q - now <= effectiveThreshold pool (dropletStaleThreshold r) el) ->
      forall q pool,
        find_path q (byUri r) = Some pool -> IsEmpty pool = false ->
        find_path q (byUri r') = Some (MarkUpdated pool now)).
Proof.
  intros Hd Hs r' refreshed.
  assert (Hfind : forall q, find_path q (byUri r')
     = live ((fun pool => fst (PruneEndpoints (MarkUpdated pool now) (dropletStaleThreshold r) (clock q)))
               <$> find_path q (byUri r))).
  { intros q. subst r'. rewrite find_tick_running by done.
    unfold tickPool. by rewrite Hs, Hd. }
  assert (Hentry : forall q pool a el,
    endpoints pool !! a = Some el ->
    endpoints (fst (PruneEndpoints (MarkUpdated pool now) (dropletStaleThreshold r) (clock q))) !! a
    = if effectiveThreshold pool (dropletStaleThreshold r) el <? clock q - now
      then None else Some {| endpoint := endpoint el; updated := now |}).
  { intros q pool a el Ha. cbn [PruneEndpoints fst with_endpoints endpoints MarkUpdated].
    destruct (effectiveThreshold pool (dropletStaleThreshold r) el <? clock q - now) eqn:E.
    - apply map_lookup_filter_None. right. intros el'. rewrite lookup_fmap, Ha.
      intros [= <-]. cbn [snd]. unfold stale. rewrite effectiveThreshold_MarkUpdated.
      cbn [updated]. by rewrite E.
    - apply map_lookup_filter_Some. split; [by rewrite lookup_fmap, Ha|].
      cbn [snd]. unfold stale. rewrite effectiveThreshold_MarkUpdated. cbn [updated]. exact E. }
  split; [|split; [|split; [|split; [|split; [|split]]]]].
  - subst r'. unfold pruneStaleDroplets. by rewrite Hs.
  - intros q. apply find_freshenRoutes.
  - intros pool a. apply lookup_fmap.
  - intros q. subst refreshed. rewrite Hfind, find_freshenRoutes.
    by destruct (find_path q (byUri r)).
  - intros q pool a el Hq Ha Hthr. rewrite Hfind, Hq. cbn [fmap option_fmap option_map].
    pose proof (Hentry q pool a el Ha) as He.
    replace (effectiveThreshold pool (dropletStaleThreshold r) el <? clock q - now)
      with false in He by (symmetry; apply Z.ltb_ge; lia).
    set (pruned := fst (PruneEndpoints (MarkUpdated pool now) (dropletStaleThreshold r) (clock q)))
      in *.
    exists pruned. split; [|exact He]. apply live_nonempty. intros p [= <-].
    apply IsEmpty_false. intros Hm. rewrite Hm, lookup_empty in He. discriminate He.
  - intros q pool a el Hq Ha Hthr pool'. rewrite Hfind, Hq. cbn [fmap option_fmap option_map].
    intros [[= <-] _]%live_Some. pose proof (Hentry q pool a el Ha) as He.
    replace (effectiveThreshold pool (dropletStaleThreshold r) el <? clock q - now)
      with true in He by (symmetry; apply Z.ltb_lt; lia).
    exact He.
  - intros Hthr q pool Hq Hne. rewrite Hfind, Hq. cbn [fmap option_fmap option_map].
    rewrite PruneEndpoints_MarkUpdated by (intros a el; by apply Hthr).
    cbn [live]. by rewrite IsEmpty_MarkUpdated, Hne.
Qed.

End facts.
End RegistryFacts.

(** ** The registry on concrete routes, under the host key model *)
Module examples.

Import route container registry notions TrieFacts RegistryFacts fixtures.

#[local] Existing Instance hostKeys.model.

Example lookup_registered :
  endpoint_list <$> Lookup registered "foo.example.com" = Some [e1]
  /\ CanonicalAddr e1 = "10.0.0.1:6060".
Proof. by vm_compute. Qed.

Example lookup_wildcard :
  endpoint_list <$> Lookup (Register NewRouteRegistry "*.example.com" e1 10 10) "foo.bar.example.com"
  = Some [e1].
Proof. by vm_compute. Qed.

Example lookup_unregistered :
  Lookup (Unregister registered "foo.example.com" e1) "foo.example.com" = None.
Proof. by vm_compute. Qed.

Lemma registered_PoolsNonEmpty : PoolsNonEmpty (byUri registered).
Proof. apply PoolsNonEmpty_Register, PoolsNonEmpty_NewTrie. Qed.

(** C2, evaluated where it fails: on a registry that has no route for the
    URI, [Lookup] misses and [LookupWithInstance] panics on the nil Pool
    instead of returning nil. *)
Theorem LookupWithInstance_miss_panics :
  Lookup NewRouteRegistry (RouteKey "foo.example.com") = None
  /\ LookupWithInstance NewRouteRegistry "foo.example.com" "app1" "0" 0 = Panics.
Proof. by vm_compute. Qed.

(** On a hit, the instance that matches comes back in a Pool of its own. *)
Example LookupWithInstance_hit :
  match LookupWithInstance registered "foo.example.com" "app1" "0" 20 with
  | Returns (Some pool) => endpoint_list pool = [e1]
  | _ => False
  end
  /\ LookupWithInstance registered "foo.example.com" "app1" "1" 20 = Returns None.
Proof. by vm_compute. Qed.

(** C4 on [registered]: unregistering its only endpoint empties the trie. *)
Lemma Unregister_removes_or_noop_witness :
  PoolsNonEmpty (byUri registered)
  /\ Unregister registered "foo.example.com" e1 = set_byUri registered NewTrie.
Proof.
  split; [exact registered_PoolsNonEmpty|].
  pose proof (Unregister_removes_or_noop registered "foo.example.com" e1 registered_PoolsNonEmpty)
    as (Hfields & _ & _).
  rewrite Hfields. reflexivity.
Defined.

(** C5 on [registered]: the Pools stay non-empty through [Unregister]
    and through a tick. *)
Lemma pool_removed_exactly_when_empty_witness :
  PoolsNonEmpty (byUri registered)
  /\ PoolsNonEmpty (byUri (Unregister registered "foo.example.com" e1))
  /\ PoolsNonEmpty (byUri (pruneStaleDroplets registered 20 (fun _ => 20))).
Proof.
  split; [exact registered_PoolsNonEmpty|].
  pose proof (pool_removed_exactly_when_empty registered registered_PoolsNonEmpty)
    as (_ & Hun & Htick).
  split; [apply (Hun "foo.example.com" e1) | apply (Htick 20 (fun _ => 20))].
Defined.

(** C6, as stated, fails: the tick under suspension changes the pruning
    status of a registry that was CONNECTED. *)
Lemma suspended_tick_changes_registry :
  suspendPruning suspended tt = true
  /\ pruningStatus suspended = CONNECTED
  /\ pruningStatus (pruneStaleDroplets suspended 50 (fun _ => 50)) = DISCONNECTED
  /\ pruneStaleDroplets suspended 50 (fun _ => 50) ≠ suspended.
Proof.
  repeat (split; [reflexivity|]).
  intros Heq. apply (f_equal pruningStatus) in Heq. discriminate Heq.
Qed.

(** C6, as amended, on [suspended]. *)
Lemma suspended_tick_changes_only_status_witness :
  suspendPruning suspended tt = true
  /\ byUri (pruneStaleDroplets suspended 50 (fun _ => 50)) = byUri suspended
  /\ pruningStatus (pruneStaleDroplets suspended 50 (fun _ => 50)) = DISCONNECTED.
Proof.
  split; [reflexivity|].
  pose proof (suspended_tick_changes_only_status suspended 50 (fun _ => 50) eq_refl)
    as (Hst & Htrie & _).
  split; [exact Htrie | exact Hst].
Defined.

(** C7, as stated, fails: with the droplet stale threshold of a fresh
    registry (zero), the endpoint refreshed at 100 is stale for the
    eviction pass that reads the clock at 101, and is evicted on the
    first tick after the suspension. *)
Lemma reconnect_tick_evicts :
  pruningStatus reconnecting = DISCONNECTED
  /\ suspendPruning reconnecting tt = false
  /\ endpoint_list <$> Lookup reconnecting "foo.example.com" = Some [e1]
  /\ Lookup (pruneStaleDroplets reconnecting 100 (fun _ => 101)) "foo.example.com" = None
  /\ byUri (pruneStaleDroplets reconnecting 100 (fun _ => 101)) = NewTrie.
Proof. by vm_compute. Qed.

(** C7, as amended, on [reconnecting_mixed]: two seconds pass between
    the refresh and the eviction; the endpoint with a threshold of 120
    seconds stays, refreshed, in the Pool that loses the endpoint with a
    threshold of one second. *)
Lemma reconnect_tick_refreshes_then_evicts_witness :
  pruningStatus moreFixtures.reconnecting_mixed = DISCONNECTED
  /\ suspendPruning moreFixtures.reconnecting_mixed tt = false
  /\ pruningStatus (pruneStaleDroplets moreFixtures.reconnecting_mixed 100
                      (fun _ => 100 + 2 * Second)) = CONNECTED
  /\ (exists pool',
        find_path ["com"; "example"; "foo"]
          (byUri (pruneStaleDroplets moreFixtures.reconnecting_mixed 100
                    (fun _ => 100 + 2 * Second))) = Some pool'
        /\ endpoints pool' !! "10.0.0.4:6060"
           = Some {| endpoint := moreFixtures.e_120s; updated := 100 |})
  /\ (forall pool',
        find_path ["com"; "example"; "foo"]
          (byUri (pruneStaleDroplets moreFixtures.reconnecting_mixed 100
                    (fun _ => 100 + 2 * Second))) = Some pool' ->
        endpoints pool' !! "10.0.0.3:6060" = None).
Proof.
  split; [reflexivity|]. split; [reflexivity|].
  pose proof (reconnect_tick_refreshes_then_evicts moreFixtures.reconnecting_mixed 100
                (fun _ => 100 + 2 * Second) eq_refl eq_refl)
    as (Hst & _ & _ & _ & Hkeep & Hevict & _).
  split; [exact Hst|]. split.
  - refine (Hkeep ["com"; "example"; "foo"]
              (Put (Put (NewPool 0 "/") moreFixtures.e_1s 10) moreFixtures.e_120s 20)
              "10.0.0.4:6060" {| endpoint := moreFixtures.e_120s; updated := 20 |} _ _ _).
    + by vm_compute.
    + by vm_compute.
    + by vm_compute.
  - refine (Hevict ["com"; "example"; "foo"]
              (Put (Put (NewPool 0 "/") moreFixtures.e_1s 10) moreFixtures.e_120s 20)
              "10.0.0.3:6060" {| endpoint := moreFixtures.e_1s; updated := 10 |} _ _ _).
    + by vm_compute.
    + by vm_compute.
    + by vm_compute.
Defined.

Example reconnect_tick_keeps_endpoint :
  (fun p => updated <$> endpoints p !! "10.0.0.1:6060")
    <$> Lookup (pruneStaleDroplets reconnecting_120s 100 (fun _ => 101)) "foo.example.com"
  = Some (Some 100).
Proof. by vm_compute. Qed.

End examples.

(** ** Properties of the Go string functions and of [parseContextPath] *)
Module StringFacts.

Import route container registry notions TrieFacts RegistryFacts.

Lemma prefix_nil s : String.prefix "" s = true.
Proof. by destruct s. Qed.

Lemma HasPrefix_iff s prefix :
  GoStrings.HasPrefix s prefix = true <-> exists rest, s = (prefix ++ rest)%string.
Proof.
  unfold GoStrings.HasPrefix. revert s.
  induction prefix as [|a prefix IH]; intros s.
  - rewrite prefix_nil. split; [by exists s | done].
  - destruct s as [|b s]; simpl; [split; [done | by intros [? [=]]]|].
    destruct (Ascii.ascii_dec a b) as [<-|Hab].
    + rewrite IH. split; intros [rest Hr]; exists rest; [by rewrite Hr | by injection Hr].
    + split; [done|]. intros [rest [= ? _]]. done.
Qed.

(** Up to the first instance of a byte, a string does not hold it. *)
Lemma index_byte_first c s :
  match String.index 0 (String c EmptyString) s with
  | Some n => GoStrings.contains_byte c (String.substring 0 n s) = false
  | None => GoStrings.contains_byte c s = false
  end.
Proof.
  induction s as [|b s IH]; simpl; [done|].
  destruct (Ascii.ascii_dec c b) as [<-|Hcb].
  - by rewrite prefix_nil.
  - destruct (String.index 0 (String c EmptyString) s) as [n|]; simpl;
      (replace (Ascii.eqb b c) with false
         by (symmetry; apply Ascii.eqb_neq; congruence)); done.
Qed.

Lemma Index_absent c s :
  GoStrings.contains_byte c s = false -> GoStrings.Index s (String c EmptyString) = -1.
Proof.
  unfold GoStrings.Index. induction s as [|b s IH]; simpl; [done|].
  destruct (Ascii.eqb b c) eqn:E; [done|]. intros Hs. apply Ascii.eqb_neq in E.
  destruct (Ascii.ascii_dec c b) as [<-|_]; [done|].
  specialize (IH Hs). destruct (String.index 0 (String c EmptyString) s); [lia | done].
Qed.

Lemma uncutContextPath_slash uri : exists rest, uncutContextPath uri = String "/" rest.
Proof.
  unfold uncutContextPath.
  destruct (GoStrings.SplitN_2 _ _) as [|? [|split1 ?]]; simpl; eauto.
Qed.

(** C10. For every URI, [parseContextPath] returns a string that begins
    with "/" and holds no "?"; so the context path of the Pool that
    [Register] creates for a route key that had none carries no query
    string (a Pool that was there keeps the context path it had). *)
Theorem parseContextPath_no_query uri :
  (exists rest, parseContextPath uri = String "/" rest)
  /\ GoStrings.HasPrefix (parseContextPath uri) "/" = true
  /\ GoStrings.contains_byte "?" (parseContextPath uri) = false
  /\ GoStrings.Index (parseContextPath uri) "?" = -1
  /\ forall (M : UriKeyModel) r e t tPut,
       contextPath <$> Find (byUri (Register r uri e t tPut)) (RouteKey uri)
       = Some (match Find (byUri r) (RouteKey uri) with
               | Some pool => contextPath pool
               | None => parseContextPath uri
               end).
Proof.
  assert (Hshape : (exists rest, parseContextPath uri = String "/" rest)
                   /\ GoStrings.contains_byte "?" (parseContextPath uri) = false).
  { unfold parseContextPath. fold (uncutContextPath uri).
    destruct (uncutContextPath_slash uri) as [rest ->].
    unfold GoStrings.Index, GoStrings.slice_to.
    pose proof (index_byte_first "?" rest) as Hfirst.
    cbn [String.index]. change (String.prefix "?" (String "/" rest)) with false. cbv iota.
    destruct (String.index 0 "?" rest) as [n|] eqn:E.
    - replace (0 <=? Z.of_nat (S n)) with true by (symmetry; apply Z.leb_le; lia).
      rewrite Nat2Z.id. simpl. eauto.
    - simpl. eauto. }
  destruct Hshape as [[rest Hrest] Hq].
  split; [eauto|]. split; [apply HasPrefix_iff; by exists rest|]. split; [done|]. split; [by apply Index_absent|].
  intros M r e t tPut. unfold Find at 1. rewrite find_Register, decide_True by done.
  by destruct (Find (byUri r) (RouteKey uri)).
Qed.

End StringFacts.

(** ** Properties of the subscriber *)
Module SubscriberFacts.

Import route mbus.

(** C8. A registry message is valid if and only if its route-service URL
    is empty or begins with "https". A message that does not decode, or
    that is not valid, is rejected by [createRegistryMessage], and the
    handlers then make no [Register] and no [Unregister] call; for a
    valid message they make one call per URI. *)
Theorem invalid_message_reaches_no_registry (Unmarshal : string -> RegistryMessage + string) :
  (forall rm, ValidateMessage rm = true <->
              RouteServiceURL rm = "" \/ exists rest, RouteServiceURL rm = ("https" ++ rest)%string)
  /\ forall message,
       match Unmarshal (Data message) with
       | inr jsonErr =>
           createRegistryMessage Unmarshal (Data message) = inr jsonErr
           /\ registerRoute Unmarshal message = []
           /\ unregisterRoute Unmarshal message = []
       | inl rm =>
           if ValidateMessage rm
           then createRegistryMessage Unmarshal (Data message) = inl rm
                /\ registerRoute Unmarshal message
                   = (fun uri => CallRegister uri (makeEndpoint rm)) <$> Uris rm
                /\ unregisterRoute Unmarshal message
                   = (fun uri => CallUnregister uri (makeEndpoint rm)) <$> Uris rm
           else (exists err, createRegistryMessage Unmarshal (Data message) = inr err)
                /\ registerRoute Unmarshal message = []
                /\ unregisterRoute Unmarshal message = []
       end.
Proof.
  split.
  - intros rm. unfold ValidateMessage. rewrite orb_true_iff, String.eqb_eq.
    by rewrite StringFacts.HasPrefix_iff.
  - intros message. unfold registerRoute, unregisterRoute, createRegistryMessage.
    destruct (Unmarshal (Data message)) as [rm|jsonErr]; [|done].
    destruct (ValidateMessage rm); simpl; eauto.
Qed.

(** The route-service URLs of the specification's example. *)
Example ValidateMessage_examples :
  ValidateMessage (fixtures.message_with_url "http://x") = false
  /\ ValidateMessage (fixtures.message_with_url "https://x") = true
  /\ ValidateMessage (fixtures.message_with_url "") = true.
Proof. by vm_compute. Qed.

(** A valid register message reaches the registry, and the route it
    carries is then found. *)
Example register_message_end_to_end :
  let Unmarshal := fun _ : string => inl (fixtures.message_with_url "https://x") in
  let calls := onMessage Unmarshal {| Subject := "router.register"; Data := "{}" |} in
  let r := runCalls (H := hostKeys.model) (fun _ => 10) (fun _ => 11) 0
             registry.NewRouteRegistry calls in
  length calls = 1%nat
  /\ (fun pool => CanonicalAddr <$> endpoint_list pool)
       <$> registry.Lookup (H := hostKeys.model) r "foo.example.com"
     = Some ["10.0.0.1:6060"].
Proof. by vm_compute. Qed.

(** C9. The subscription [subscribeRoutes] configures has a limit of
    131072 pending messages and of 134217728 pending bytes, which is the
    131072*1024 of the code. *)
Theorem pending_limits_of_subscribeRoutes sub err :
  subscribeRoutes (Some sub) err
  = (Some {| subject := subject sub; pendingMsgLimit := 131072;
             pendingBytesLimit := 134217728 |}, err)
  /\ 131072 * 1024 = 134217728.
Proof. done. Qed.

End SubscriberFacts.

(** ** Further properties of the registry *)
Module MoreRegistryFacts.

Import route container registry notions moreNotions TrieFacts RegistryFacts.

Section facts.
Context `{UriKeyModel}.

Lemma lookupLoop_ext fuel t1 t2 uri err pool :
  (forall k, MatchUri t1 k = MatchUri t2 k) ->
  lookupLoop fuel t1 uri err pool = lookupLoop fuel t2 uri err pool.
Proof.
  intros Hm. revert uri err pool. induction fuel as [|fuel IH]; intros uri err pool; simpl; [done|].
  destruct pool, err; try done. destruct (NextWildcard uri) as [u' err']. by rewrite Hm, IH.
Qed.

(** Two registries whose tries hold the same Pools answer every lookup alike. *)
Lemma Lookup_ext r1 r2 uri :
  (forall q, find_path q (byUri r1) = find_path q (byUri r2)) -> Lookup r1 uri = Lookup r2 uri.
Proof.
  intros Hq. unfold Lookup.
  assert (Hm : forall k, MatchUri (byUri r1) k = MatchUri (byUri r2) k) by (intros k; apply Hq).
  by rewrite Hm, (lookupLoop_ext _ _ _ _ _ _ Hm).
Qed.

Lemma Lookup_firstMatch r uri :
  exists ks, generalizations (RouteKey uri) ks
    /\ Lookup r uri = firstMatch (byUri r) (RouteKey uri :: ks).
Proof.
  destruct (lookupLoop_ends (byUri r) (S (specificity (RouteKey uri))) (RouteKey uri))
    as (ks & Hks & Hloop); [lia|].
  exists ks. split; [done|]. unfold Lookup. cbn [firstMatch].
  destruct (MatchUri (byUri r) (RouteKey uri)) as [pool|].
  - by rewrite lookupLoop_stops by eauto.
  - by rewrite Hloop.
Qed.

Lemma firstMatch_ext t1 t2 ks :
  Forall (fun k => MatchUri t1 k = MatchUri t2 k) ks -> firstMatch t1 ks = firstMatch t2 ks.
Proof. induction 1 as [|k ks Hk _ IH]; simpl; [done|]. by rewrite Hk, IH. Qed.

(** X1. A registry with no route answers nil to every lookup. *)
Theorem Lookup_without_routes r uri :
  byUri r = NewTrie -> Lookup r uri = None.
Proof.
  intros Hnew. destruct (Lookup_firstMatch r uri) as (ks & _ & ->).
  apply firstMatch_None, Forall_forall. intros k _. unfold MatchUri.
  rewrite Hnew. apply find_path_NewTrie.
Qed.

(** X2. [Register] and [Unregister] of a route leave alone every lookup
    whose generalisation chain does not pass through the route's key:
    the lookup returns what it returned before. *)
Theorem other_routes_Lookup_unchanged r u e t tPut uri ks :
  generalizations (RouteKey uri) ks ->
  Forall (fun k => segments k ≠ segments (RouteKey u)) (RouteKey uri :: ks) ->
  Lookup (Register r u e t tPut) uri = Lookup r uri
  /\ (PoolsNonEmpty (byUri r) -> Lookup (Unregister r u e) uri = Lookup r uri).
Proof.
  intros Hks Hother.
  assert (Hsame : forall r', (forall q, q ≠ segments (RouteKey u) ->
                               find_path q (byUri r') = find_path q (byUri r)) ->
                             Lookup r' uri = Lookup r uri).
  { intros r' Hfind.
    destruct (Lookup_firstMatch r' uri) as (ks' & Hks' & ->).
    destruct (Lookup_firstMatch r uri) as (ks'' & Hks'' & ->).
    rewrite (generalizations_fun _ _ _ Hks' Hks), (generalizations_fun _ _ _ Hks'' Hks).
    apply firstMatch_ext. eapply Forall_impl; [exact Hother|].
    intros k Hk. apply Hfind, Hk. }
  split.
  - apply Hsame. intros q Hq. rewrite find_Register. by rewrite decide_False.
  - intros Hinv. apply Hsame. intros q Hq. rewrite find_Unregister by done.
    by rewrite decide_False.
Qed.

Lemma Remove_Put_absent pool e now :
  endpoints pool !! CanonicalAddr e = None -> Remove (Put pool e now) e = pool.
Proof.
  intros Ha. unfold Remove, Put, with_endpoints. cbn [endpoints contextPath threshold].
  rewrite delete_insert_id by done. by destruct pool.
Qed.

(** X3. Register, then unregister: when the endpoint's address was not
    routed under the URI, [Unregister] after [Register] gives back the
    routes there were: every Pool of the trie, and so every lookup, is as
    before the two calls. *)
Theorem Register_Unregister_round_trip r u e t tPut :
  PoolsNonEmpty (byUri r) ->
  unrouted r u e ->
  let r' := Unregister (Register r u e t tPut) u e in
  (forall q, find_path q (byUri r') = find_path q (byUri r))
  /\ forall uri, Lookup r' uri = Lookup r uri.
Proof.
  intros Hinv Hun r'.
  assert (Hfind : forall q, find_path q (byUri r') = find_path q (byUri r)).
  { intros q. subst r'. rewrite find_Unregister by (by apply PoolsNonEmpty_Register).
    rewrite find_Register. case_decide as Hq.
    - subst q. rewrite decide_True by done.
      unfold unrouted, Find in *.
      destruct (find_path (segments (RouteKey u)) (byUri r)) as [pool|] eqn:E;
        unfold fmap, option_fmap, option_map, default.
      + rewrite Remove_Put_absent by (by apply Hun).
        apply live_nonempty. intros ? [= <-]. by apply (Hinv _ _ E).
      + rewrite Remove_Put_absent by done. done.
    - by rewrite decide_False by congruence. }
  split; [done|]. intros uri. by apply Lookup_ext.
Qed.

Lemma Put_Put pool e e' now now' :
  CanonicalAddr e = CanonicalAddr e' -> Put (Put pool e now) e' now' = Put pool e' now'.
Proof.
  intros Ha. unfold Put, with_endpoints. cbn [endpoints contextPath threshold].
  by rewrite Ha, insert_insert_eq.
Qed.

(** X4. Registering again under the same URI an endpoint with the same
    canonical address replaces the entry and adds none: the trie, and so
    every lookup, is what the second [Register] alone gives, with the
    second endpoint record and the second timestamp. *)
Theorem Register_again_replaces r u e e' t tPut t' tPut' :
  CanonicalAddr e = CanonicalAddr e' ->
  let r2 := Register (Register r u e t tPut) u e' t' tPut' in
  let r1 := Register r u e' t' tPut' in
  (forall q, find_path q (byUri r2) = find_path q (byUri r1))
  /\ (forall uri, Lookup r2 uri = Lookup r1 uri)
  /\ TimeOfLastUpdate r2 = t'.
Proof.
  intros Ha r2 r1.
  assert (Hfind : forall q, find_path q (byUri r2) = find_path q (byUri r1)).
  { intros q. subst r1 r2. rewrite !find_Register. case_decide as Hq; [|done].
    unfold Find at 1. rewrite find_Register, decide_True by done.
    cbn [default dropletStaleThreshold Register set_timeOfLastUpdate set_byUri].
    unfold id. by rewrite Put_Put. }
  split; [done|]. split; [|done]. intros uri. by apply Lookup_ext.
Qed.


(** X5. [Register] and [Unregister] of an endpoint touch no entry kept
    under another canonical address: such an entry, under any URI, is
    still there afterwards, with the same endpoint record and the same
    timestamp. *)
Theorem other_addresses_untouched r u e t tPut uri pool a el :
  Find (byUri r) (RouteKey uri) = Some pool ->
  endpoints pool !! a = Some el ->
  a ≠ CanonicalAddr e ->
  (exists pool', Find (byUri (Register r u e t tPut)) (RouteKey uri) = Some pool'
                 /\ endpoints pool' !! a = Some el)
  /\ (PoolsNonEmpty (byUri r) ->
      exists pool', Find (byUri (Unregister r u e)) (RouteKey uri) = Some pool'
                    /\ endpoints pool' !! a = Some el).
Proof.
  unfold Find. intros Hpool Ha Hne. split.
  - rewrite find_Register. case_decide as Hq.
    + eexists. split; [done|]. unfold Find. rewrite Hq, Hpool. cbn [default Put with_endpoints endpoints].
      by rewrite lookup_insert_ne.
    + eauto.
  - intros Hinv. rewrite find_Unregister by done. case_decide as Hq; [|eauto].
    rewrite Hpool. cbn [fmap option_fmap option_map live].
    assert (Hkept : endpoints (Remove pool e) !! a = Some el).
    { cbn [Remove with_endpoints endpoints]. by rewrite lookup_delete_ne. }
    assert (Hne' : IsEmpty (Remove pool e) = false).
    { apply IsEmpty_false. intros Hm. by rewrite Hm, lookup_empty in Hkept. }
    rewrite Hne'. eauto.
Qed.

Lemma endpoint_list_elem pool a el :
  endpoints pool !! a = Some el -> endpoint el ∈ endpoint_list pool.
Proof.
  intros Ha. unfold endpoint_list. apply list_elem_of_fmap.
  exists (a, el). split; [done|]. by apply elem_of_map_to_list.
Qed.

(** X6. An instance just registered is found by [LookupWithInstance]
    under its application id and instance index, when [RouteKey] leaves
    the route key of the URI as it is ([LookupWithInstance] normalises the
    URI, and [Lookup] normalises it again): the call returns a new Pool
    holding one endpoint of the looked-up Pool that has both. *)
Theorem LookupWithInstance_after_Register r u e t tPut tSurgical :
  RouteKey (RouteKey u) = RouteKey u ->
  let r' := Register r u e t tPut in
  exists routes e',
    Lookup r' u = Some routes
    /\ e' ∈ endpoint_list routes
    /\ ApplicationId e' = ApplicationId e
    /\ PrivateInstanceIndex e' = PrivateInstanceIndex e
    /\ LookupWithInstance r' u (ApplicationId e) (PrivateInstanceIndex e) tSurgical
       = Returns (Some (Put (NewPool 0 "") e' tSurgical)).
Proof.
  intros Hidem r'.
  assert (Hfind : MatchUri (byUri r') (RouteKey u)
                  = Some (Put (default (NewPool (Z.quot (dropletStaleThreshold r) 4) (parseContextPath u))
                                 (Find (byUri r) (RouteKey u))) e tPut)).
  { unfold MatchUri. subst r'. rewrite find_Register. by rewrite decide_True. }
  set (routes := Put _ e tPut) in Hfind.
  assert (Hl : Lookup r' u = Some routes) by (by apply Lookup_hit).
  assert (Hl' : Lookup r' (RouteKey u) = Some routes).
  { apply Lookup_hit. by rewrite Hidem. }
  destruct (LookupWithInstance_hit_returns r' u (ApplicationId e) (PrivateInstanceIndex e)
              tSurgical routes Hl') as (res & Hres & Hnone & Hsome).
  destruct res as [pool|].
  - destruct (Hsome pool eq_refl) as (e' & He' & Ha & Hi & ->). by exists routes, e'.
  - exfalso. destruct Hnone as [Hnone _]. specialize (Hnone eq_refl).
    rewrite Forall_forall in Hnone. apply (Hnone e); [|done].
    apply (endpoint_list_elem routes (CanonicalAddr e) {| endpoint := e; updated := tPut |}).
    subst routes. cbn [Put with_endpoints endpoints]. apply lookup_insert_eq.
Qed.

(** X7. The time of the last update is the clock of the last [Register]:
    [Register] sets it, and [Unregister], a tick of the pruning cycle
    (whatever it evicts), [SuspendPruning], [StartPruningCycle] and
    [StopPruningCycle] leave it as it is. *)
Theorem TimeOfLastUpdate_only_by_Register r :
  (forall u e t tPut, TimeOfLastUpdate (Register r u e t tPut) = t)
  /\ (forall u e, TimeOfLastUpdate (Unregister r u e) = TimeOfLastUpdate r)
  /\ (forall now clock, TimeOfLastUpdate (pruneStaleDroplets r now clock) = TimeOfLastUpdate r)
  /\ (forall f, TimeOfLastUpdate (SuspendPruning r f) = TimeOfLastUpdate r)
  /\ TimeOfLastUpdate (StartPruningCycle r) = TimeOfLastUpdate r
  /\ TimeOfLastUpdate (StopPruningCycle r) = TimeOfLastUpdate r.
Proof.
  unfold TimeOfLastUpdate. repeat split.
  - intros u e. unfold Unregister. destruct (Find _ _); [destruct (IsEmpty _)|]; done.
  - intros now clock. unfold pruneStaleDroplets.
    destruct (suspendPruning r tt); [done|]. by destruct (pruningStatus r).
  - unfold StartPruningCycle. by destruct (0 <? _).
  - unfold StopPruningCycle. by destruct (ticker r).
Qed.

(** No method of the registry writes the pruning interval or the droplet
    stale threshold. *)
Lemma config_kept r :
  (forall u e t tPut, pruneStaleDropletsInterval (Register r u e t tPut) = pruneStaleDropletsInterval r
                      /\ dropletStaleThreshold (Register r u e t tPut) = dropletStaleThreshold r
                      /\ ticker (Register r u e t tPut) = ticker r)
  /\ (forall u e, pruneStaleDropletsInterval (Unregister r u e) = pruneStaleDropletsInterval r
                  /\ dropletStaleThreshold (Unregister r u e) = dropletStaleThreshold r
                  /\ ticker (Unregister r u e) = ticker r)
  /\ (forall now clock,
        pruneStaleDropletsInterval (pruneStaleDroplets r now clock) = pruneStaleDropletsInterval r
        /\ dropletStaleThreshold (pruneStaleDroplets r now clock) = dropletStaleThreshold r
        /\ ticker (pruneStaleDroplets r now clock) = ticker r).
Proof.
  split; [done|]. split.
  - intros u e. unfold Unregister. destruct (Find _ _); [destruct (IsEmpty _)|]; done.
  - intros now clock. unfold pruneStaleDroplets.
    destruct (suspendPruning r tt); [done|]. by destruct (pruningStatus r).
Qed.

(** X8. A registry made by [NewRouteRegistry()] never gets a pruning
    cycle: whatever methods are called on it, its pruning interval and
    its droplet stale threshold stay zero and its ticker nil, so that
    [StartPruningCycle] creates no ticker and changes nothing. *)
Theorem no_pruning_cycle_from_NewRouteRegistry r :
  Produced r ->
  pruneStaleDropletsInterval r = 0
  /\ dropletStaleThreshold r = 0
  /\ ticker r = None
  /\ StartPruningCycle r = r
  /\ StopPruningCycle r = r.
Proof.
  intros Hr.
  assert (Hcfg : pruneStaleDropletsInterval r = 0 /\ dropletStaleThreshold r = 0 /\ ticker r = None).
  { induction Hr as [|r u e t tPut _ IH|r u e _ IH|r now clock _ IH|r f _ IH|r _ IH|r _ IH].
    - done.
    - destruct (config_kept r) as (Hreg & _ & _).
      destruct (Hreg u e t tPut) as (-> & -> & ->). exact IH.
    - destruct (config_kept r) as (_ & Hun & _).
      destruct (Hun u e) as (-> & -> & ->). exact IH.
    - destruct (config_kept r) as (_ & _ & Htick).
      destruct (Htick now clock) as (-> & -> & ->). exact IH.
    - exact IH.
    - destruct IH as (Hi & Ht & Hk). unfold StartPruningCycle. by rewrite Hi.
    - destruct IH as (Hi & Ht & Hk). unfold StopPruningCycle. by rewrite Hk. }
  destruct Hcfg as (Hi & Ht & Hk). repeat (split; [done|]). split.
  - unfold StartPruningCycle. by rewrite Hi.
  - unfold StopPruningCycle. by rewrite Hk.
Qed.

(** X9. The pruning status after a tick is the answer the suspend
    predicate gave at that tick. A tick that finds the registry CONNECTED
    and not suspended refreshes nothing: each Pool it leaves is the Pool
    that was there less the evicted entries, the entries kept having the
    endpoint record and the timestamp they had, and the Pool its context
    path and threshold. *)
Theorem connected_tick_only_evicts r now clock :
  let r' := pruneStaleDroplets r now clock in
  pruningStatus r' = (if suspendPruning r tt then DISCONNECTED else CONNECTED)
  /\ (pruningStatus r = CONNECTED -> suspendPruning r tt = false ->
      forall q pool', find_path q (byUri r') = Some pool' ->
        exists pool, find_path q (byUri r) = Some pool
          /\ endpoints pool' ⊆ endpoints pool
          /\ contextPath pool' = contextPath pool
          /\ threshold pool' = threshold pool).
Proof.
  intros r'. split.
  - subst r'. unfold pruneStaleDroplets. by destruct (suspendPruning r tt).
  - intros Hc Hs q pool'. subst r'. rewrite find_tick_running by done.
    unfold tickPool. rewrite Hs, Hc. intros [Hf _]%live_Some.
    destruct (find_path q (byUri r)) as [pool|]; [|done].
    injection Hf as <-. exists pool. split; [done|]. split; [|done].
    cbn [PruneEndpoints fst with_endpoints endpoints]. apply map_filter_subseteq.
Qed.


Lemma firstMatch_app t (pre ks : list Uri) :
  Forall (fun k => MatchUri t k = None) pre -> firstMatch t (pre ++ ks)%list = firstMatch t ks.
Proof. induction 1 as [|k pre Hk _ IH]; simpl; [done|]. by rewrite Hk. Qed.

(** X14. Wildcard fallback. When a key of the generalisation chain of
    [uri] has the trie path of the route key [Register(u, e)] used, and no
    key before it in the chain has a Pool, [Lookup(uri)] after that
    [Register] returns the Pool of the route, which holds [e] under its
    canonical address. *)
Theorem Lookup_falls_back_to_registered_wildcard r u e t tPut uri ks (pre : list Uri) k post :
  generalizations (RouteKey uri) ks ->
  RouteKey uri :: ks = (pre ++ k :: post)%list ->
  segments k = segments (RouteKey u) ->
  Forall (fun k' => MatchUri (byUri (Register r u e t tPut)) k' = None) pre ->
  exists pool,
    Lookup (Register r u e t tPut) uri = Some pool
    /\ Find (byUri (Register r u e t tPut)) (RouteKey u) = Some pool
    /\ endpoints pool !! CanonicalAddr e = Some {| endpoint := e; updated := tPut |}.
Proof.
  intros Hks Hsplit Hk Hpre.
  destruct (Lookup_firstMatch (Register r u e t tPut) uri) as (ks' & Hks' & ->).
  rewrite (generalizations_fun _ _ _ Hks' Hks), Hsplit, firstMatch_app by done.
  cbn [firstMatch]. unfold MatchUri at 1, Find. rewrite Hk, find_Register, decide_True by done.
  eexists. split; [done|]. split; [done|]. apply lookup_insert_eq.
Qed.

(** X15. A tick of the pruning cycle adds nothing: whatever the pruning
    status and the answer of the suspend predicate, every Pool the trie
    holds after the tick was at the same node before, and every entry of
    it was in that Pool under the same address with the same endpoint
    record (the refresh after a suspension changes timestamps only). *)
Theorem tick_adds_nothing r now clock q pool' a el' :
  find_path q (byUri (pruneStaleDroplets r now clock)) = Some pool' ->
  endpoints pool' !! a = Some el' ->
  exists pool el,
    find_path q (byUri r) = Some pool
    /\ endpoints pool !! a = Some el
    /\ endpoint el' = endpoint el
    /\ contextPath pool' = contextPath pool.
Proof.
  destruct (suspendPruning r tt) eqn:Hs.
  - unfold pruneStaleDroplets. rewrite Hs. cbn [byUri set_pruningStatus].
    intros Hf Ha. by exists pool', el'.
  - rewrite find_tick_running by done. intros [Hf _]%live_Some.
    destruct (find_path q (byUri r)) as [pool|]; [|done]. injection Hf as <-.
    unfold tickPool. rewrite Hs. intros Ha. exists pool.
    destruct (pruningStatus r); cbn [PruneEndpoints fst with_endpoints endpoints] in Ha;
      apply map_lookup_filter_Some in Ha as [Ha _].
    + by exists el'.
    + cbn [MarkUpdated with_endpoints endpoints] in Ha. rewrite lookup_fmap in Ha.
      destruct (endpoints pool !! a) as [el|]; [|done]. injection Ha as <-. by exists el.
Qed.

End facts.
End MoreRegistryFacts.

(** ** Further properties of the subscriber *)
Module MoreSubscriberFacts.

Import route container registry mbus notions moreNotions TrieFacts RegistryFacts.

(** X10. The callback of the subscription goes by the subject: every
    call it makes on the registry is a [Register] under the subject
    "router.register" and an [Unregister] under "router.unregister", and
    under any other subject it makes no call at all, whatever the message
    holds. *)
Theorem onMessage_dispatches_by_subject (Unmarshal : string -> RegistryMessage + string) message :
  (forall c, c ∈ onMessage Unmarshal message ->
     (Subject message = "router.register" /\ isRegister c = true)
     \/ (Subject message = "router.unregister" /\ isRegister c = false))
  /\ (Subject message ≠ "router.register" -> Subject message ≠ "router.unregister" ->
      onMessage Unmarshal message = []).
Proof.
  unfold onMessage, registerRoute, unregisterRoute. split.
  - intros c. destruct (String.eqb_spec (Subject message) "router.register") as [Hs|_].
    + destruct (createRegistryMessage _ _); [|by intros ?%elem_of_nil].
      intros (uri & -> & _)%list_elem_of_fmap. by left.
    + destruct (String.eqb_spec (Subject message) "router.unregister") as [Hs|_];
        [|by intros ?%elem_of_nil].
      destruct (createRegistryMessage _ _); [|by intros ?%elem_of_nil].
      intros (uri & -> & _)%list_elem_of_fmap. by right.
  - intros H1 H2.
    destruct (String.eqb_spec (Subject message) "router.register"); [done|].
    by destruct (String.eqb_spec (Subject message) "router.unregister").
Qed.

Section handled.
Context `{UriKeyModel}.
Variable Unmarshal : string -> RegistryMessage + string.

(** The [Register] calls of a handler leave alone the Pool below a trie
    path that is the route key of none of their URIs. *)
Lemma find_apart_from_Registers (uris : list Uri) : forall now nowPut i r e k,
  Forall (fun u => segments (RouteKey u) ≠ k) uris ->
  find_path k (byUri (runCalls now nowPut i r ((fun uri => CallRegister uri e) <$> uris)))
  = find_path k (byUri r).
Proof.
  induction uris as [|u us IH]; intros now nowPut i r e k Hall; [done|].
  apply Forall_cons in Hall as [Hu Hus]. cbn [fmap list_fmap runCalls runCall].
  rewrite (IH _ _ _ _ _ _ Hus), find_Register. by rewrite decide_False.
Qed.

(** After the [Register] calls of a handler, the Pool below the route key
    of one of their URIs holds the endpoint, stamped by the [Put] of the
    last call whose URI has that route key. *)
Lemma last_Register_stamps (uris : list Uri) : forall now nowPut i0 r e k,
  Exists (fun u => segments (RouteKey u) = k) uris ->
  exists pool i u,
    find_path k (byUri (runCalls now nowPut i0 r ((fun uri => CallRegister uri e) <$> uris)))
    = Some pool
    /\ uris !! i = Some u
    /\ segments (RouteKey u) = k
    /\ (forall j u', (i < j)%nat -> uris !! j = Some u' -> segments (RouteKey u') ≠ k)
    /\ endpoints pool !! CanonicalAddr e = Some (entryOf e (nowPut (i0 + i)%nat)).
Proof.
  induction uris as [|u0 us IH]; intros now nowPut i0 r e k Hex;
    [by apply Exists_nil in Hex|].
  cbn [fmap list_fmap runCalls runCall].
  destruct (decide (Exists (fun u => segments (RouteKey u) = k) us)) as [Hlater|Hnone].
  - destruct (IH now nowPut (S i0) (Register r u0 e (now i0) (nowPut i0)) e k Hlater)
      as (pool & i & u & Hpool & Hi & Hk & Hlast & Ha).
    exists pool, (S i), u. split; [exact Hpool|]. split; [exact Hi|]. split; [exact Hk|].
    split.
    + intros [|j] u' Hj Hu'; [lia|]. apply (Hlast j u'); [lia | exact Hu'].
    + by rewrite Nat.add_succ_r.
  - apply Exists_cons in Hex as [Hk|Hex]; [|done].
    apply not_Exists_Forall in Hnone; [|intros u; apply _].
    rewrite find_apart_from_Registers by exact Hnone.
    rewrite find_Register, decide_True by done.
    eexists _, O, u0. split; [done|]. split; [done|]. split; [done|]. split.
    + intros [|j] u' Hj Hu'; [lia|]. cbn in Hu'.
      rewrite Forall_lookup in Hnone. exact (Hnone j u' Hu').
    + rewrite Nat.add_0_r. apply lookup_insert_eq.
Qed.

(** X11. A register message that decodes and is valid routes its
    endpoint under every URI it lists: once the handler has made its
    calls, each reading the clock for itself, a lookup of any of those
    URIs returns a Pool that holds the message's endpoint under its
    canonical address; the entry is stamped with the clock read by the
    [Put] of the last call of the handler whose URI has the same route
    key. *)
Theorem register_message_routes_every_uri message rm r now nowPut :
  Unmarshal (Data message) = inl rm ->
  ValidateMessage rm = true ->
  Subject message = "router.register" ->
  let r' := runCalls now nowPut 0 r (onMessage Unmarshal message) in
  forall uri, uri ∈ Uris rm ->
    exists pool i u,
      Lookup r' uri = Some pool
      /\ Uris rm !! i = Some u
      /\ segments (RouteKey u) = segments (RouteKey uri)
      /\ (forall j u', (i < j)%nat -> Uris rm !! j = Some u' ->
                       segments (RouteKey u') ≠ segments (RouteKey uri))
      /\ endpoints pool !! CanonicalAddr (makeEndpoint rm)
         = Some (entryOf (makeEndpoint rm) (nowPut i)).
Proof.
  intros Hdec Hval Hsub r' uri Hin. subst r'.
  unfold onMessage, registerRoute, createRegistryMessage. rewrite Hsub, Hdec, Hval.
  cbn [String.eqb Ascii.eqb Bool.eqb negb].
  destruct (last_Register_stamps (Uris rm) now nowPut O r (makeEndpoint rm)
              (segments (RouteKey uri)))
    as (pool & i & u & Hpool & Hi & Hk & Hlast & Ha).
  { apply Exists_exists. by exists uri. }
  exists pool, i, u. split; [by apply Lookup_hit|]. done.
Qed.

Lemma unrouted_after_Unregister r u e :
  PoolsNonEmpty (byUri r) -> unrouted (Unregister r u e) u e.
Proof.
  intros Hinv pool. unfold Find. rewrite find_Unregister, decide_True by done.
  intros [Hf _]%live_Some. destruct (find_path _ (byUri r)) as [p|]; [|done].
  injection Hf as <-. apply lookup_delete_eq.
Qed.

Lemma unrouted_kept_by_Unregister r u uri e :
  PoolsNonEmpty (byUri r) -> unrouted r uri e -> unrouted (Unregister r u e) uri e.
Proof.
  intros Hinv Hun pool. unfold unrouted, Find in *. rewrite find_Unregister by done.
  case_decide.
  - intros [Hf _]%live_Some. destruct (find_path _ (byUri r)) as [p|]; [|done].
    injection Hf as <-. apply lookup_delete_eq.
  - apply Hun.
Qed.

Lemma unrouted_after_Unregisters uris : forall r e uri,
  PoolsNonEmpty (byUri r) ->
  uri ∈ uris ->
  unrouted (foldl (fun r u => Unregister r u e) r uris) uri e.
Proof.
  assert (Hkeep : forall us r e uri,
    PoolsNonEmpty (byUri r) -> unrouted r uri e ->
    unrouted (foldl (fun r u => Unregister r u e) r us) uri e).
  { induction us as [|u us IH]; intros r e uri Hinv Hr; simpl; [done|].
    apply IH; [by apply PoolsNonEmpty_Unregister | by apply unrouted_kept_by_Unregister]. }
  induction uris as [|u us IH]; intros r e uri Hinv Hin; [by apply elem_of_nil in Hin|].
  simpl. apply elem_of_cons in Hin as [->|Hin].
  - apply Hkeep; [by apply PoolsNonEmpty_Unregister | by apply unrouted_after_Unregister].
  - apply IH; [by apply PoolsNonEmpty_Unregister | done].
Qed.

(** The [Unregister] calls of a handler read no clock. *)
Lemma runCalls_Unregisters (uris : list Uri) : forall now nowPut i r e,
  runCalls now nowPut i r ((fun uri => CallUnregister uri e) <$> uris)
  = foldl (fun r u => Unregister r u e) r uris.
Proof.
  induction uris as [|u us IH]; intros now nowPut i r e; [done|].
  cbn [fmap list_fmap runCalls runCall foldl]. apply IH.
Qed.

(** X12. An unregister message that decodes and is valid takes its
    endpoint off every URI it lists: once the handler has made its calls
    on a registry whose Pools are non-empty, no Pool at the route key of
    any of those URIs holds the canonical address of the message's
    endpoint. *)
Theorem unregister_message_unroutes_every_uri message rm r now nowPut :
  PoolsNonEmpty (byUri r) ->
  Unmarshal (Data message) = inl rm ->
  ValidateMessage rm = true ->
  Subject message = "router.unregister" ->
  let r' := runCalls now nowPut 0 r (onMessage Unmarshal message) in
  forall uri, uri ∈ Uris rm -> unrouted r' uri (makeEndpoint rm).
Proof.
  intros Hinv Hdec Hval Hsub r' uri Hin. subst r'.
  unfold onMessage, unregisterRoute, createRegistryMessage. rewrite Hsub, Hdec, Hval.
  cbn [String.eqb Ascii.eqb Bool.eqb negb].
  rewrite runCalls_Unregisters.
  by apply unrouted_after_Unregisters.
Qed.

End handled.

End MoreSubscriberFacts.

(** ** Further properties of [parseContextPath] *)
Module MoreStringFacts.

Import route registry notions.












End MoreStringFacts.

(** ** The further properties on concrete routes *)
Module moreExamples.

Import route container registry mbus notions moreNotions fixtures moreFixtures.
Import TrieFacts RegistryFacts MoreRegistryFacts MoreSubscriberFacts MoreStringFacts.

#[local] Existing Instance hostKeys.model.

(** X1 on the new registry. *)
Lemma Lookup_without_routes_witness :
  byUri NewRouteRegistry = NewTrie /\ Lookup NewRouteRegistry "foo.example.com" = None.
Proof. split; [reflexivity|]. apply Lookup_without_routes. reflexivity. Defined.

(** The generalisation chain of "bar.example.org" under the host key model. *)
Lemma org_chain :
  generalizations (RouteKey "bar.example.org") ["*.example.org"; "*.org"; "*.org"].
Proof.
  eapply gen_next; [reflexivity|]. eapply gen_next; [reflexivity|].
  eapply gen_exhausted. reflexivity.
Qed.

(** No key of that chain has the trie path of "foo.example.com". *)
Lemma org_chain_apart :
  Forall (fun k => segments k ≠ segments (RouteKey "foo.example.com"))
         (RouteKey "bar.example.org" :: ["*.example.org"; "*.org"; "*.org"]).
Proof.
  repeat (constructor; [intros Heq; vm_compute in Heq; discriminate Heq|]).
  constructor.
Qed.

(** X2: registering under "foo.example.com" leaves the lookup of
    "bar.example.org" as it was. *)
Lemma other_routes_Lookup_unchanged_witness :
  Lookup (Register registered "foo.example.com" e2 20 20) "bar.example.org"
  = Lookup registered "bar.example.org".
Proof.
  exact (proj1 (other_routes_Lookup_unchanged registered "foo.example.com" e2 20 20
                  "bar.example.org" _ org_chain org_chain_apart)).
Defined.

(** [registered] has no route for "bar.example.com". *)
Lemma bar_unrouted : unrouted registered "bar.example.com" e1.
Proof. intros pool Hf. vm_compute in Hf. discriminate Hf. Qed.

(** X3 on [registered] and a URI it has no route for. *)
Lemma Register_Unregister_round_trip_witness :
  PoolsNonEmpty (byUri registered)
  /\ unrouted registered "bar.example.com" e1
  /\ forall uri,
       Lookup (Unregister (Register registered "bar.example.com" e1 20 20) "bar.example.com" e1) uri
       = Lookup registered uri.
Proof.
  split; [exact examples.registered_PoolsNonEmpty|]. split; [exact bar_unrouted|].
  exact (proj2 (Register_Unregister_round_trip registered "bar.example.com" e1 20 20
                  examples.registered_PoolsNonEmpty bar_unrouted)).
Defined.

(** X4: the same address registered again with another application id. *)
Lemma Register_again_replaces_witness :
  CanonicalAddr e1 = CanonicalAddr e1_redeployed
  /\ TimeOfLastUpdate (Register registered "foo.example.com" e1_redeployed 20 20) = 20.
Proof.
  split; [reflexivity|].
  exact (proj2 (proj2 (Register_again_replaces NewRouteRegistry "foo.example.com" e1 e1_redeployed
                         10 10 20 20 eq_refl))).
Defined.

(** X5: registering [e2] leaves the entry of [e1] as it was. *)
Lemma other_addresses_untouched_witness :
  exists pool',
    Find (byUri (Register registered "foo.example.com" e2 20 20)) (RouteKey "foo.example.com")
    = Some pool'
    /\ endpoints pool' !! "10.0.0.1:6060" = Some {| endpoint := e1; updated := 10 |}.
Proof.
  refine (proj1 (other_addresses_untouched registered "foo.example.com" e2 20 20
                   "foo.example.com" (Put (NewPool 0 "/") e1 10) "10.0.0.1:6060"
                   {| endpoint := e1; updated := 10 |} _ _ _)).
  - by vm_compute.
  - by vm_compute.
  - by vm_compute.
Defined.

(** X6 under the host key model, whose [RouteKey] is idempotent here. *)
Lemma LookupWithInstance_after_Register_witness :
  RouteKey (RouteKey "foo.example.com") = RouteKey "foo.example.com"
  /\ exists routes e',
       Lookup registered "foo.example.com" = Some routes
       /\ e' ∈ endpoint_list routes
       /\ ApplicationId e' = "app1"
       /\ route.PrivateInstanceIndex e' = "0"
       /\ LookupWithInstance registered "foo.example.com" "app1" "0" 30
          = Returns (Some (Put (NewPool 0 "") e' 30)).
Proof.
  split; [reflexivity|].
  exact (LookupWithInstance_after_Register NewRouteRegistry "foo.example.com" e1 10 10 30 eq_refl).
Defined.

(** The generalisation chain of "foo.bar.example.com". *)
Lemma deep_chain :
  generalizations (RouteKey "foo.bar.example.com")
                  ["*.bar.example.com"; "*.example.com"; "*.com"; "*.com"].
Proof.
  eapply gen_next; [reflexivity|]. eapply gen_next; [reflexivity|].
  eapply gen_next; [reflexivity|]. eapply gen_exhausted. reflexivity.
Qed.

(** X14: "foo.bar.example.com" falls back to the route "*.example.com". *)
Lemma Lookup_falls_back_to_registered_wildcard_witness :
  exists pool,
    Lookup (Register NewRouteRegistry "*.example.com" e1 10 10) "foo.bar.example.com" = Some pool
    /\ endpoints pool !! CanonicalAddr e1 = Some {| endpoint := e1; updated := 10 |}.
Proof.
  destruct (Lookup_falls_back_to_registered_wildcard NewRouteRegistry "*.example.com" e1 10 10
              "foo.bar.example.com" _ ["foo.bar.example.com"; "*.bar.example.com"]
              "*.example.com" ["*.com"; "*.com"] deep_chain eq_refl eq_refl)
    as (pool & Hl & _ & Ha).
  - repeat (constructor; [reflexivity|]). constructor.
  - exists pool. split; [exact Hl | exact Ha].
Defined.

(** X15 on the tick that reconnects [reconnecting_120s]. *)
Lemma tick_adds_nothing_witness :
  exists pool el,
    find_path ["com"; "example"; "foo"] (byUri fixtures.reconnecting_120s) = Some pool
    /\ endpoints pool !! "10.0.0.1:6060" = Some el
    /\ endpoint el = e1.
Proof.
  destruct (tick_adds_nothing fixtures.reconnecting_120s 100 (fun _ => 101)
              ["com"; "example"; "foo"] (MarkUpdated (Put (NewPool 0 "/") e1 10) 100)
              "10.0.0.1:6060" {| endpoint := e1; updated := 100 |})
    as (pool & el & Hp & Ha & He & _).
  - by vm_compute.
  - by vm_compute.
  - exists pool, el. split; [exact Hp|]. split; [exact Ha|]. symmetry. exact He.
Defined.

(** [reconnecting] is made from [NewRouteRegistry()] by method calls. *)
Lemma reconnecting_Produced : Produced reconnecting.
Proof. repeat constructor. Qed.

(** X8 on [reconnecting]. *)
Lemma no_pruning_cycle_from_NewRouteRegistry_witness :
  Produced reconnecting /\ StartPruningCycle reconnecting = reconnecting.
Proof.
  split; [exact reconnecting_Produced|].
  exact (proj1 (proj2 (proj2 (proj2
           (no_pruning_cycle_from_NewRouteRegistry reconnecting reconnecting_Produced))))).
Defined.

(** X11 on a message that lists one route twice, the second time with a
    query string: the two calls read different clocks, and the entry
    found under the first URI carries the clock of the second call. *)
Lemma register_message_routes_every_uri_witness :
  exists pool i u,
    Lookup (runCalls (fun i => 10 + Z.of_nat i) (fun i => 20 + Z.of_nat i) 0
              NewRouteRegistry (onMessage decoded_twice register_message))
           "foo.example.com" = Some pool
    /\ Uris message_twice !! i = Some u
    /\ segments (RouteKey u) = segments (RouteKey "foo.example.com")
    /\ (forall j u', (i < j)%nat -> Uris message_twice !! j = Some u' ->
                     segments (RouteKey u') ≠ segments (RouteKey "foo.example.com"))
    /\ endpoints pool !! CanonicalAddr (makeEndpoint message_twice)
       = Some (entryOf (makeEndpoint message_twice) (20 + Z.of_nat i)).
Proof.
  refine (register_message_routes_every_uri decoded_twice register_message
            message_twice NewRouteRegistry (fun i => 10 + Z.of_nat i)
            (fun i => 20 + Z.of_nat i) eq_refl eq_refl eq_refl "foo.example.com" _).
  apply elem_of_cons. left. reflexivity.
Defined.

(** The clocks of that run: the second call stamps the entry. *)
Example register_message_twice_stamp :
  (fun pool => updated <$> endpoints pool !! "10.0.0.1:6060")
    <$> Lookup (runCalls (fun i => 10 + Z.of_nat i) (fun i => 20 + Z.of_nat i) 0
                  NewRouteRegistry (onMessage decoded_twice register_message))
               "foo.example.com"
  = Some (Some 21).
Proof. by vm_compute. Qed.

(** X12 on [registered]. *)
Lemma unregister_message_unroutes_every_uri_witness :
  PoolsNonEmpty (byUri registered)
  /\ unrouted (runCalls (fun _ => 40) (fun _ => 40) 0 registered
                (onMessage decoded unregister_message))
              "foo.example.com" (makeEndpoint (message_with_url "https://x")).
Proof.
  split; [exact examples.registered_PoolsNonEmpty|].
  refine (unregister_message_unroutes_every_uri decoded unregister_message
            (message_with_url "https://x") registered (fun _ => 40) (fun _ => 40)
            examples.registered_PoolsNonEmpty eq_refl eq_refl eq_refl "foo.example.com" _).
  apply list_elem_of_singleton. reflexivity.
Defined.


End moreExamples.
